(** * occt_step_export: mesh extraction and serialization pipeline

    A shallow embedding of [apps/occt-service/occt_cli/main.cpp].

    - C++ [double] is IEEE binary64, embedded as Rocq's primitive [float];
      comparisons and arithmetic are the primitive ones, and their properties
      are derived from the [SpecFloat] specification of the Standard Library.
      Every operation rounds to binary64 on its own (no fused multiply-add),
      and there is one NaN: sign and payload of a NaN are not modelled.
    - [std::vector] is a list; [push_back] appends at the end.
    - [unsigned int] is a [Z] in [0, 2^32); the narrowing [static_cast] is
      written out as a reduction modulo [2^32].
    - The geometry kernel (OpenCASCADE) and the C++ runtime ([std::stod],
      [operator<<] on [double]) are not part of the program: they are the
      fields of the records [Kernel] and [Runtime]. *)

From Stdlib Require Import ZArith List String Ascii Bool Lia.
From Stdlib Require Import Floats DecimalString.
Import ListNotations.

Set Warnings "-inexact-float".

(** ** Data model *)

Record Vec3 := mkVec3 { x : float; y : float; z : float }.

Record Bounds := mkBounds { min : Vec3; max : Vec3 }.

Record MeshData := mkMeshData {
  positions : list float;
  normals : list float;
  indices : list Z
}.

(** ** The C++ runtime *)

Module Std.

(** [std::min(a, b)] is [(b < a) ? b : a]. *)
Definition min (a b : float) : float := if (b <? a)%float then b else a.

(** [std::max(a, b)] is [(a < b) ? b : a]. *)
Definition max (a b : float) : float := if (a <? b)%float then b else a.

(** [std::numeric_limits<double>::max()] and [::lowest()]. *)
Definition numeric_limits_max : float := 0x1.fffffffffffffp+1023%float.
Definition numeric_limits_lowest : float := (- 0x1.fffffffffffffp+1023)%float.

(** [static_cast<unsigned int>] of a [size_t]. *)
Definition UINT_WIDTH : Z := 32.
Definition to_unsigned_int (n : Z) : Z := n mod 2 ^ UINT_WIDTH.

(** [operator<<] on an [unsigned int]: decimal digits. *)
Definition show_unsigned (n : Z) : string :=
  NilZero.string_of_uint (N.to_uint (Z.to_N n)).

End Std.

(** What the program takes from the C++ runtime: [std::stod] ([None] when it
    throws) and the default stream formatting of a [double]. *)
Record Runtime := mkRuntime {
  stod : string -> option float;
  show_double : float -> string
}.

(** ** The geometry kernel, at its boundary *)

Record gp_Pnt := mk_gp_Pnt { pX : float; pY : float; pZ : float }.

(** A [gp_Trsf] is used only through [gp_Pnt::Transformed]. *)
Definition gp_Trsf := gp_Pnt -> gp_Pnt.
Definition Transformed (p : gp_Pnt) (t : gp_Trsf) : gp_Pnt := t p.

(** [Poly_Triangle::Get(i1, i2, i3)]: three node numbers. *)
Definition Poly_Triangle := (Z * Z * Z)%type.

(** [Node] is the kernel's accessor, asked only for the node numbers of the
    triangles; [Triangles] lists the triangles from [Lower()] to [Upper()]. *)
Record Poly_Triangulation := mkTriangulation {
  Node : Z -> gp_Pnt;
  Triangles : list Poly_Triangle
}.

Inductive TopAbs_Orientation :=
  TopAbs_FORWARD | TopAbs_REVERSED | TopAbs_INTERNAL | TopAbs_EXTERNAL.

(** [BRep_Tool::Triangulation(face, location)] yields the triangulation
    ([None] for a null handle) and the location. *)
Record TopoDS_Face := mkFace {
  Triangulation : option Poly_Triangulation;
  Location : gp_Trsf;
  Orientation : TopAbs_Orientation
}.

(** A non-null shape: meshing it with a deflection and an angle either fails
    ([IsDone()] false, [None]) or leaves the faces that [TopExp_Explorer]
    visits, in its order. *)
Record TopoDS_Shape := mkShape {
  BRepMesh_IncrementalMesh : float -> float -> option (list TopoDS_Face)
}.

(** [ReadFile] tells whether the status is [IFSelect_RetDone]; [OneShape] is
    the shape after [TransferRoots], [None] when it is null. *)
Record Kernel := mkKernel {
  ReadFile : string -> bool;
  OneShape : string -> option TopoDS_Shape
}.

(** ** Helper functions of main.cpp *)

Definition readDouble (R : Runtime) (value : option string) (fallback : float)
  : float :=
  match value with
  | None => fallback
  | Some text =>
      match stod R text with
      | Some d => d
      | None => fallback
      end
  end.

Definition unitScale (unit : string) : float :=
  if String.eqb unit "m" then 1.0%float else 0.001%float.

Definition updateBounds (bounds : Bounds) (point : Vec3) : Bounds :=
  {| min := {| x := Std.min (x (min bounds)) (x point);
               y := Std.min (y (min bounds)) (y point);
               z := Std.min (z (min bounds)) (z point) |};
     max := {| x := Std.max (x (max bounds)) (x point);
               y := Std.max (y (max bounds)) (y point);
               z := Std.max (z (max bounds)) (z point) |} |}.

Definition subtract (a b : Vec3) : Vec3 :=
  {| x := x a - x b; y := y a - y b; z := z a - z b |}%float.

Definition cross (a b : Vec3) : Vec3 :=
  {| x := y a * z b - z a * y b;
     y := z a * x b - x a * z b;
     z := x a * y b - y a * x b |}%float.

Definition vecLength (value : Vec3) : float :=
  PrimFloat.sqrt (x value * x value + y value * y value + z value * z value)%float.

Definition normalize (value : Vec3) : Vec3 :=
  let length := vecLength value in
  if (length <=? 1e-12)%float then
    {| x := 0.0; y := 0.0; z := 0.0 |}%float
  else
    {| x := x value / length; y := y value / length; z := z value / length |}%float.

Definition appendVertex (mesh : MeshData) (point normal : Vec3) : MeshData :=
  {| positions := positions mesh ++ [x point; y point; z point];
     normals := normals mesh ++ [x normal; y normal; z normal];
     indices := indices mesh
                ++ [Std.to_unsigned_int (Z.of_nat (List.length (indices mesh)))] |}.

(** ** Command line *)

Record Options := mkOptions {
  deflection : float;
  angle : float;
  unit : string
}.

Definition defaultOptions : Options :=
  {| deflection := 0.2%float; angle := 0.5%float; unit := "mm" |}.

(** The option loop of [main], from index [i] on: [args] is [argv[i..argc)].
    A flag needs [i + 1 < argc]; whatever matches no branch is stepped over. *)
Fixpoint parseOptions (R : Runtime) (args : list string) (o : Options)
  : Options :=
  match args with
  | [] => o
  | arg :: rest =>
      match rest with
      | [] => o
      | value :: rest' =>
          if String.eqb arg "--deflection" then
            parseOptions R rest'
              {| deflection := readDouble R (Some value) (deflection o);
                 angle := angle o; unit := unit o |}
          else if String.eqb arg "--angle" then
            parseOptions R rest'
              {| deflection := deflection o;
                 angle := readDouble R (Some value) (angle o);
                 unit := unit o |}
          else if String.eqb arg "--unit" then
            parseOptions R rest'
              {| deflection := deflection o; angle := angle o; unit := value |}
          else parseOptions R rest o
      end
  end.

(** ** Extraction: the face loop and the triangle loop of [main] *)

Definition emptyMesh : MeshData :=
  {| positions := []; normals := []; indices := [] |}.

Definition initialBounds : Bounds :=
  {| min := {| x := Std.numeric_limits_max; y := Std.numeric_limits_max;
               z := Std.numeric_limits_max |};
     max := {| x := Std.numeric_limits_lowest; y := Std.numeric_limits_lowest;
               z := Std.numeric_limits_lowest |} |}.

(** [Vec3 v{p.X() * scale, p.Y() * scale, p.Z() * scale}]. *)
Definition scaled (scale : float) (p : gp_Pnt) : Vec3 :=
  {| x := pX p * scale; y := pY p * scale; z := pZ p * scale |}%float.

(** [if (reversed) { normal.x *= -1.0; normal.y *= -1.0; normal.z *= -1.0; }] *)
Definition orient (reversed : bool) (normal : Vec3) : Vec3 :=
  if reversed then
    {| x := x normal * -1.0; y := y normal * -1.0; z := z normal * -1.0 |}%float
  else normal.

Definition isReversed (o : TopAbs_Orientation) : bool :=
  match o with TopAbs_REVERSED => true | _ => false end.

(** The body of the triangle loop. *)
Definition processTriangle (scale : float) (T : Poly_Triangulation)
    (transform : gp_Trsf) (reversed : bool)
    (st : MeshData * Bounds) (t : Poly_Triangle) : MeshData * Bounds :=
  let '(mesh, bounds) := st in
  let '(i1, i2, i3) := t in
  let p1 := Transformed (Node T i1) transform in
  let p2 := Transformed (Node T i2) transform in
  let p3 := Transformed (Node T i3) transform in
  let v1 := scaled scale p1 in
  let v2 := scaled scale p2 in
  let v3 := scaled scale p3 in
  let normal :=
    orient reversed (normalize (cross (subtract v2 v1) (subtract v3 v1))) in
  let mesh := appendVertex mesh v1 normal in
  let mesh := appendVertex mesh v2 normal in
  let mesh := appendVertex mesh v3 normal in
  let bounds := updateBounds bounds v1 in
  let bounds := updateBounds bounds v2 in
  let bounds := updateBounds bounds v3 in
  (mesh, bounds).

(** The body of the face loop. *)
Definition processFace (scale : float) (st : MeshData * Bounds)
    (face : TopoDS_Face) : MeshData * Bounds :=
  match Triangulation face with
  | None => st
  | Some T =>
      let transform := Location face in
      let reversed := isReversed (Orientation face) in
      fold_left (processTriangle scale T transform reversed) (Triangles T) st
  end.

Definition extract (scale : float) (faces : list TopoDS_Face)
  : MeshData * Bounds :=
  fold_left (processFace scale) faces (emptyMesh, initialBounds).

(** ** Serialization and the process *)

(** What a run leaves behind: the exit code and the text written to standard
    output and to standard error. *)
Record Outcome := mkOutcome {
  exit_code : Z;
  out : string;
  err : string
}.

Definition LF : string := String "010"%char EmptyString.
Definition DQ : string := String "034"%char EmptyString.
Definition quoted (s : string) : string := (DQ ++ s ++ DQ)%string.

(** The loops that write a sequence with [","] before every item but the
    first. *)
Fixpoint commaSeparated (items : list string) : string :=
  match items with
  | [] => EmptyString
  | [item] => item
  | item :: rest => (item ++ "," ++ commaSeparated rest)%string
  end.

Definition serialize (R : Runtime) (bounds : Bounds) (mesh : MeshData)
  : string :=
  ("{"
   ++ quoted "bounds" ++ ":{" ++ quoted "min" ++ ":["
   ++ show_double R (x (min bounds)) ++ ","
   ++ show_double R (y (min bounds)) ++ ","
   ++ show_double R (z (min bounds)) ++ "]," ++ quoted "max" ++ ":["
   ++ show_double R (x (max bounds)) ++ ","
   ++ show_double R (y (max bounds)) ++ ","
   ++ show_double R (z (max bounds)) ++ "]},"
   ++ quoted "meshes" ++ ":[{"
   ++ quoted "id" ++ ":" ++ quoted "mesh-0" ++ ","
   ++ quoted "positions" ++ ":["
   ++ commaSeparated (map (show_double R) (positions mesh))
   ++ "],"
   ++ quoted "normals" ++ ":["
   ++ commaSeparated (map (show_double R) (normals mesh))
   ++ "],"
   ++ quoted "indices" ++ ":["
   ++ commaSeparated (map Std.show_unsigned (indices mesh))
   ++ "]"
   ++ "}],"
   ++ quoted "edges" ++ ":[]"
   ++ "}")%string.

Definition failure (message : string) : Outcome :=
  {| exit_code := 1; out := EmptyString; err := message |}.

Definition usageMessage : string :=
  ("Usage: occt_step_export <file.step> [--deflection 0.2] [--angle 0.5] [--unit mm]"
   ++ LF)%string.
Definition readFailureMessage : string := ("Failed to read STEP file." ++ LF)%string.
Definition noShapeMessage : string := ("STEP file has no shapes." ++ LF)%string.
Definition meshingFailureMessage : string := ("Meshing failed." ++ LF)%string.
Definition emptyMeshMessage : string := ("No mesh data extracted." ++ LF)%string.

(** [mesh.positions.empty()] *)
Definition empty {A : Type} (v : list A) : bool :=
  match v with [] => true | _ => false end.

(** [main]: [argv] holds the [argc] arguments, the program's name first. *)
Definition main (R : Runtime) (K : Kernel) (argv : list string) : Outcome :=
  match argv with
  | _ :: filePath :: rest =>
      let o := parseOptions R rest defaultOptions in
      if negb (ReadFile K filePath) then failure readFailureMessage
      else
        match OneShape K filePath with
        | None => failure noShapeMessage
        | Some shape =>
            match BRepMesh_IncrementalMesh shape (deflection o) (angle o) with
            | None => failure meshingFailureMessage
            | Some faces =>
                let scale := unitScale (unit o) in
                let '(mesh, bounds) := extract scale faces in
                if empty (positions mesh) then failure emptyMeshMessage
                else {| exit_code := 0;
                        out := serialize R bounds mesh;
                        err := EmptyString |}
            end
        end
  | _ => failure usageMessage
  end.

(** ** The sequence of calls a run makes

    The statements below speak about "every emitted vertex" and "after every
    append".  [calls] lists, in order, the arguments of the [appendVertex]
    calls of the two loops; [extract_replay] shows that the loops do exactly
    these calls. *)

(** The three transformed kernel points of a triangle. *)
Definition trianglePoints (T : Poly_Triangulation) (transform : gp_Trsf)
    (t : Poly_Triangle) : list gp_Pnt :=
  let '(i1, i2, i3) := t in
  [Transformed (Node T i1) transform;
   Transformed (Node T i2) transform;
   Transformed (Node T i3) transform].

Definition facePoints (face : TopoDS_Face) : list gp_Pnt :=
  match Triangulation face with
  | None => []
  | Some T => flat_map (trianglePoints T (Location face)) (Triangles T)
  end.

Definition kernelPoints (faces : list TopoDS_Face) : list gp_Pnt :=
  flat_map facePoints faces.

(** The normal emitted for a triangle. *)
Definition triangleNormal (scale : float) (T : Poly_Triangulation)
    (transform : gp_Trsf) (reversed : bool) (t : Poly_Triangle) : Vec3 :=
  let '(i1, i2, i3) := t in
  let v1 := scaled scale (Transformed (Node T i1) transform) in
  let v2 := scaled scale (Transformed (Node T i2) transform) in
  let v3 := scaled scale (Transformed (Node T i3) transform) in
  orient reversed (normalize (cross (subtract v2 v1) (subtract v3 v1))).

(** The [(point, normal)] arguments of the three appends of a triangle. *)
Definition triangleCalls (scale : float) (T : Poly_Triangulation)
    (transform : gp_Trsf) (reversed : bool) (t : Poly_Triangle)
  : list (Vec3 * Vec3) :=
  map (fun p => (scaled scale p, triangleNormal scale T transform reversed t))
      (trianglePoints T transform t).

Definition faceCalls (scale : float) (face : TopoDS_Face)
  : list (Vec3 * Vec3) :=
  match Triangulation face with
  | None => []
  | Some T =>
      flat_map
        (triangleCalls scale T (Location face) (isReversed (Orientation face)))
        (Triangles T)
  end.

Definition calls (scale : float) (faces : list TopoDS_Face)
  : list (Vec3 * Vec3) :=
  flat_map (faceCalls scale) faces.

(** Doing a sequence of [appendVertex] calls, and of [updateBounds] calls. *)
Definition replay (cs : list (Vec3 * Vec3)) (mesh : MeshData) : MeshData :=
  fold_left (fun m c => appendVertex m (fst c) (snd c)) cs mesh.

Definition fold (points : list Vec3) (bounds : Bounds) : Bounds :=
  fold_left updateBounds points bounds.

(** Componentwise negation of a vector. *)
Definition negate (v : Vec3) : Vec3 :=
  {| x := - x v; y := - y v; z := - z v |}%float.

(** The buffer invariant. *)
Definition consistent (mesh : MeshData) : Prop :=
  List.length (positions mesh) = List.length (normals mesh)
  /\ List.length (positions mesh) = (3 * List.length (indices mesh))%nat.

(** [point] lies inside [bounds] on the axis read by [axis]. *)
Definition within (axis : Vec3 -> float) (bounds : Bounds) (point : Vec3)
  : Prop :=
  (axis (min bounds) <=? axis point)%float = true
  /\ (axis point <=? axis (max bounds))%float = true.

(** [bounds] contain [point] on every axis on which the coordinate of [point]
    is a number. *)
Definition covers (bounds : Bounds) (point : Vec3) : Prop :=
  (is_nan (x point) = false -> within x bounds point)
  /\ (is_nan (y point) = false -> within y bounds point)
  /\ (is_nan (z point) = false -> within z bounds point).

(** No component of [bounds] is a NaN. *)
Definition numeric (bounds : Bounds) : Prop :=
  (is_nan (x (min bounds)) = false /\ is_nan (y (min bounds)) = false
   /\ is_nan (z (min bounds)) = false)
  /\ (is_nan (x (max bounds)) = false /\ is_nan (y (max bounds)) = false
      /\ is_nan (z (max bounds)) = false).

(** The arguments the option loop knows. *)
Definition isFlag (arg : string) : bool :=
  String.eqb arg "--deflection" || String.eqb arg "--angle"
  || String.eqb arg "--unit".

(** ** Measures of a run *)

(** The triangles that the triangle loop visits on a face. *)
Definition faceTriangles (face : TopoDS_Face) : list Poly_Triangle :=
  match Triangulation face with
  | None => []
  | Some T => Triangles T
  end.

Definition triangleCount (faces : list TopoDS_Face) : nat :=
  list_sum (map (fun face => List.length (faceTriangles face)) faces).

(** A face on which the triangle loop runs at least once. *)
Definition hasTriangles (face : TopoDS_Face) : bool :=
  negb (empty (faceTriangles face)).

(** The normal of every triangle, in the order of the two loops. *)
Definition faceNormals (scale : float) (face : TopoDS_Face) : list Vec3 :=
  match Triangulation face with
  | None => []
  | Some T =>
      map (triangleNormal scale T (Location face)
             (isReversed (Orientation face)))
          (Triangles T)
  end.

Definition triangleNormals (scale : float) (faces : list TopoDS_Face)
  : list Vec3 :=
  flat_map (faceNormals scale) faces.

Definition withUnit (o : Options) (u : string) : Options :=
  {| deflection := deflection o; angle := angle o; unit := u |}.

(** The ways a run of [main] can go: too few arguments, a file that cannot be
    read, no shape, a meshing failure, nothing extracted, or a document. *)
Inductive Ending (R : Runtime) (K : Kernel) (argv : list string)
  : Outcome -> Prop :=
| EndUsage :
    (List.length argv < 2)%nat -> Ending R K argv (failure usageMessage)
| EndRead program filePath rest :
    argv = program :: filePath :: rest ->
    ReadFile K filePath = false ->
    Ending R K argv (failure readFailureMessage)
| EndNoShape program filePath rest :
    argv = program :: filePath :: rest ->
    ReadFile K filePath = true -> OneShape K filePath = None ->
    Ending R K argv (failure noShapeMessage)
| EndMeshing program filePath rest shape :
    argv = program :: filePath :: rest ->
    ReadFile K filePath = true -> OneShape K filePath = Some shape ->
    BRepMesh_IncrementalMesh shape
      (deflection (parseOptions R rest defaultOptions))
      (angle (parseOptions R rest defaultOptions)) = None ->
    Ending R K argv (failure meshingFailureMessage)
| EndEmpty program filePath rest shape faces :
    argv = program :: filePath :: rest ->
    ReadFile K filePath = true -> OneShape K filePath = Some shape ->
    BRepMesh_IncrementalMesh shape
      (deflection (parseOptions R rest defaultOptions))
      (angle (parseOptions R rest defaultOptions)) = Some faces ->
    kernelPoints faces = [] ->
    Ending R K argv (failure emptyMeshMessage)
| EndDocument program filePath rest shape faces :
    argv = program :: filePath :: rest ->
    ReadFile K filePath = true -> OneShape K filePath = Some shape ->
    BRepMesh_IncrementalMesh shape
      (deflection (parseOptions R rest defaultOptions))
      (angle (parseOptions R rest defaultOptions)) = Some faces ->
    kernelPoints faces <> [] ->
    Ending R K argv
      {| exit_code := 0;
         out := serialize R
                  (snd (extract
                          (unitScale (unit (parseOptions R rest defaultOptions)))
                          faces))
                  (fst (extract
                          (unitScale (unit (parseOptions R rest defaultOptions)))
                          faces));
         err := EmptyString |}.

(** [value] is the starting value [sentinel] or the coordinate of one of
    [points] on [axis]. *)
Definition sentinelOrCoordinate (sentinel value : float)
    (axis : Vec3 -> float) (points : list Vec3) : Prop :=
  value = sentinel \/ exists v, In v points /\ value = axis v.

(** Some coordinate of the vector is a NaN. *)
Definition hasNaN (v : Vec3) : bool :=
  is_nan (x v) || is_nan (y v) || is_nan (z v).

(** Every coordinate of the vector is a finite number. *)
Definition allFinite (v : Vec3) : bool :=
  is_finite (x v) && is_finite (y v) && is_finite (z v).

(** ** Sample inputs *)

Module Sample.

(** A runtime that reads two numerals and writes every number as [#]. *)
Definition runtime : Runtime :=
  {| stod := fun text =>
       if String.eqb text "0.3" then Some 0.3%float
       else if String.eqb text "2" then Some 2.0%float
       else None;
     show_double := fun _ => "#"%string |}.

Definition node (i : Z) : gp_Pnt :=
  match i with
  | 1%Z => {| pX := 0.0; pY := 0.0; pZ := 0.0 |}
  | 2%Z => {| pX := 1000.0; pY := 0.0; pZ := 0.0 |}
  | 3%Z => {| pX := 0.0; pY := 2000.0; pZ := 0.0 |}
  | _ => {| pX := 0.0; pY := 0.0; pZ := 500.0 |}
  end%float.

Definition triangulation : Poly_Triangulation :=
  {| Node := node; Triangles := [(1, 2, 3); (1, 3, 4)]%Z |}.

Definition here : gp_Trsf := fun p => p.

Definition forwardFace : TopoDS_Face :=
  {| Triangulation := Some triangulation; Location := here;
     Orientation := TopAbs_FORWARD |}.

Definition reversedFace : TopoDS_Face :=
  {| Triangulation := Some triangulation; Location := here;
     Orientation := TopAbs_REVERSED |}.

Definition bareFace : TopoDS_Face :=
  {| Triangulation := None; Location := here;
     Orientation := TopAbs_FORWARD |}.

(** A triangle of no area: its three corners are one node. *)
Definition flatTriangle : Poly_Triangle := (2, 2, 2)%Z.

(** A face one of whose nodes has a coordinate that is not a number. *)
Definition strayNode (i : Z) : gp_Pnt :=
  {| pX := PrimFloat.nan; pY := 0.0; pZ := 0.0 |}%float.

Definition strayFace : TopoDS_Face :=
  {| Triangulation := Some {| Node := strayNode; Triangles := [(1, 1, 1)%Z] |};
     Location := here; Orientation := TopAbs_FORWARD |}.

(** A face of 1431655766 triangles: 4294967298 vertices, more than 2^32. *)
Definition hugeFace : TopoDS_Face :=
  {| Triangulation :=
       Some {| Node := node;
               Triangles := repeat (1, 2, 3)%Z (Z.to_nat 1431655766) |};
     Location := here; Orientation := TopAbs_FORWARD |}.

Definition solid : TopoDS_Shape :=
  {| BRepMesh_IncrementalMesh := fun _ _ => Some [forwardFace; reversedFace] |}.

Definition hollow : TopoDS_Shape :=
  {| BRepMesh_IncrementalMesh := fun _ _ => Some [bareFace] |}.

(** A kernel that reads [solid.step] and [hollow.step]. *)
Definition kernel : Kernel :=
  {| ReadFile := fun path =>
       String.eqb path "solid.step" || String.eqb path "hollow.step";
     OneShape := fun path =>
       if String.eqb path "solid.step" then Some solid
       else if String.eqb path "hollow.step" then Some hollow
       else None |}.

End Sample.

(** ** What [std::stod] reads

    [std::stod] is the C++ runtime's, not the program's.  The C standard
    (strtod) and the C++ standard (stod) fix which part of a text it reads:
    white space is skipped; then comes the subject sequence, the longest
    initial part that has the form of a number: an optional sign, then decimal
    digits with an optional point and an optional exponent, or a hexadecimal
    number with an optional binary exponent, or INF, INFINITY or NAN with an
    optional parenthesised sequence, ignoring case; what follows is left
    unread.  [std::stod] throws when the subject sequence is empty, or when
    the conversion reports a range error, and returns the converted number
    otherwise.  [Strtod.subjectSequence] is that decomposition in the C
    locale, which the program never changes. *)

Module Strtod.

Local Open Scope string_scope.

Definition code (c : ascii) : N := N_of_ascii c.

Definition between (lo hi : N) (c : ascii) : bool :=
  (lo <=? code c)%N && (code c <=? hi)%N.

(** [isspace] in the C locale: space, \t, \n, \v, \f, \r. *)
Definition isspace (c : ascii) : bool :=
  (code c =? 32)%N || between 9 13 c.

Definition isdigit (c : ascii) : bool := between 48 57 c.

Definition isxdigit (c : ascii) : bool :=
  isdigit c || between 97 102 c || between 65 70 c.

(** Digits, letters and the underscore: the characters of an n-char-sequence. *)
Definition isnchar (c : ascii) : bool :=
  isdigit c || between 97 122 c || between 65 90 c || (code c =? 95)%N.

Definition tolower (c : ascii) : ascii :=
  if between 65 90 c then ascii_of_N (code c + 32) else c.

Definition issign (c : ascii) : bool :=
  Ascii.eqb c "+" || Ascii.eqb c "-".

(** The longest prefix of characters that satisfy [p], and what follows. *)
Fixpoint span (p : ascii -> bool) (s : string) : string * string :=
  match s with
  | EmptyString => (EmptyString, EmptyString)
  | String c rest =>
      if p c then let '(taken, remaining) := span p rest in (String c taken, remaining)
      else (EmptyString, s)
  end.

Definition isEmpty (s : string) : bool :=
  match s with EmptyString => true | _ => false end.

(** An optional sign. *)
Definition sign (s : string) : string * string :=
  match s with
  | String c rest =>
      if issign c then (String c EmptyString, rest) else (EmptyString, s)
  | EmptyString => (EmptyString, s)
  end.

(** A nonempty sequence of digits optionally containing a decimal point. *)
Definition digitSequence (digit : ascii -> bool) (s : string)
  : option (string * string) :=
  let '(whole, afterWhole) := span digit s in
  match afterWhole with
  | String "." afterPoint =>
      let '(fraction, remaining) := span digit afterPoint in
      if isEmpty whole && isEmpty fraction then None
      else Some (whole ++ "." ++ fraction, remaining)
  | _ => if isEmpty whole then None else Some (whole, afterWhole)
  end.

(** An optional exponent part: the marker, an optional sign and a nonempty
    sequence of decimal digits. *)
Definition exponentPart (marker : ascii) (s : string) : string * string :=
  match s with
  | String c rest =>
      if Ascii.eqb (tolower c) marker then
        let '(sg, afterSign) := sign rest in
        let '(digits, remaining) := span isdigit afterSign in
        if isEmpty digits then (EmptyString, s)
        else (String c (sg ++ digits), remaining)
      else (EmptyString, s)
  | EmptyString => (EmptyString, s)
  end.

Definition decimalForm (s : string) : option (string * string) :=
  match digitSequence isdigit s with
  | None => None
  | Some (mantissa, afterMantissa) =>
      let '(exponent, remaining) := exponentPart "e" afterMantissa in
      Some (mantissa ++ exponent, remaining)
  end.

Definition hexadecimalForm (s : string) : option (string * string) :=
  match s with
  | String "0" (String c rest) =>
      if Ascii.eqb (tolower c) "x" then
        match digitSequence isxdigit rest with
        | None => None
        | Some (mantissa, afterMantissa) =>
            let '(exponent, remaining) := exponentPart "p" afterMantissa in
            Some (String "0" (String c (mantissa ++ exponent)), remaining)
        end
      else None
  | _ => None
  end.

(** [word], ignoring case, at the start of [s]: the text matched and the
    rest. *)
Fixpoint keyword (word s : string) : option (string * string) :=
  match word with
  | EmptyString => Some (EmptyString, s)
  | String w word' =>
      match s with
      | String c rest =>
          if Ascii.eqb (tolower c) w then
            match keyword word' rest with
            | Some (matched, remaining) => Some (String c matched, remaining)
            | None => None
            end
          else None
      | EmptyString => None
      end
  end.

Definition infinityForm (s : string) : option (string * string) :=
  match keyword "infinity" s with
  | Some found => Some found
  | None => keyword "inf" s
  end.

Definition nanForm (s : string) : option (string * string) :=
  match keyword "nan" s with
  | None => None
  | Some (matched, afterNan) =>
      match afterNan with
      | String "(" afterOpen =>
          let '(chars, afterChars) := span isnchar afterOpen in
          match afterChars with
          | String ")" remaining => Some (matched ++ "(" ++ chars ++ ")", remaining)
          | _ => Some (matched, afterNan)
          end
      | _ => Some (matched, afterNan)
      end
  end.

Definition unsignedForm (s : string) : option (string * string) :=
  match hexadecimalForm s with
  | Some found => Some found
  | None =>
      match decimalForm s with
      | Some found => Some found
      | None =>
          match infinityForm s with
          | Some found => Some found
          | None => nanForm s
          end
      end
  end.

Definition subjectSequence (text : string) : option string :=
  let '(_, afterSpace) := span isspace text in
  let '(sg, afterSign) := sign afterSpace in
  match unsignedForm afterSign with
  | None => None
  | Some (number, _) => Some (sg ++ number)
  end.


End Strtod.


(** A conforming runtime for examples: its [stod] converts the subject
    sequences [0.3], [0] and [2], and reports every other number as out of
    range. *)
Module Reader.

Definition value (number : string) : option float :=
  if String.eqb number "0.3" then Some 0.3%float
  else if String.eqb number "0" then Some 0.0%float
  else if String.eqb number "2" then Some 2.0%float
  else None.

Definition runtime : Runtime :=
  {| stod := fun text =>
       match Strtod.subjectSequence text with
       | None => None
       | Some number => value number
       end;
     show_double := fun _ => "#"%string |}.

End Reader.

(** * Properties *)

(** ** Facts about binary64 comparison and multiplication

    Derived from the [SpecFloat] specification of the primitive operations. *)

Section SpecFloatOrder.

Local Ltac by_cases :=
  unfold SFleb, SFltb, SFeqb, SFcompare;
  repeat match goal with
    | f : spec_float |- _ => destruct f as [[]|[]| |[] ? ?]
    end;
  try reflexivity; try discriminate;
  change (Pos.compare_cont Eq ?p ?q) with (Pos.compare p q);
  repeat match goal with
    | |- context [Z.compare ?a ?b] => destruct (Z.compare_spec a b)
    | |- context [Pos.compare ?a ?b] => destruct (Pos.compare_spec a b)
    end;
  cbn; try reflexivity; try discriminate; try lia.

Lemma SFltb_SFleb_trans a b c :
  SFltb a b = true -> SFleb b c = true -> SFleb a c = true.
Proof. by_cases. Qed.

Lemma SFleb_SFltb_trans a b c :
  SFleb a b = true -> SFltb b c = true -> SFleb a c = true.
Proof. by_cases. Qed.

Lemma SFleb_refl a : SFeqb a a = true -> SFleb a a = true.
Proof. by_cases. Qed.

Lemma SFltb_false_SFleb a b :
  SFeqb a a = true -> SFeqb b b = true ->
  SFltb a b = false -> SFleb b a = true.
Proof. by_cases. Qed.

Lemma SFleb_trans a b c :
  SFleb a b = true -> SFleb b c = true -> SFleb a c = true.
Proof. by_cases. Qed.

Lemma SFltb_SFleb_false a b : SFltb a b = true -> SFleb b a = false.
Proof. by_cases. Qed.

Lemma SFltb_SFeqb a b :
  SFltb a b = true -> SFeqb a a = true /\ SFeqb b b = true.
Proof. by_cases; split; reflexivity. Qed.

End SpecFloatOrder.

Section DoubleOrder.

Local Open Scope float_scope.

Lemma is_nan_SFeqb a : is_nan a = false -> SFeqb (Prim2SF a) (Prim2SF a) = true.
Proof.
  unfold is_nan. rewrite eqb_spec. now destruct (SFeqb _ _).
Qed.

Lemma ltb_leb_trans a b c :
  (a <? b) = true -> (b <=? c) = true -> (a <=? c) = true.
Proof. rewrite ltb_spec, !leb_spec. apply SFltb_SFleb_trans. Qed.

Lemma leb_ltb_trans a b c :
  (a <=? b) = true -> (b <? c) = true -> (a <=? c) = true.
Proof. rewrite ltb_spec, !leb_spec. apply SFleb_SFltb_trans. Qed.

Lemma leb_trans a b c :
  (a <=? b) = true -> (b <=? c) = true -> (a <=? c) = true.
Proof. rewrite !leb_spec. apply SFleb_trans. Qed.

Lemma leb_refl a : is_nan a = false -> (a <=? a) = true.
Proof. intros H. rewrite leb_spec. now apply SFleb_refl, is_nan_SFeqb. Qed.

Lemma ltb_false_leb a b :
  is_nan a = false -> is_nan b = false -> (a <? b) = false -> (b <=? a) = true.
Proof.
  intros Ha Hb. rewrite ltb_spec, leb_spec.
  apply SFltb_false_SFleb; now apply is_nan_SFeqb.
Qed.

Lemma ltb_leb_false a b : (a <? b) = true -> (b <=? a) = false.
Proof. rewrite ltb_spec, leb_spec. apply SFltb_SFleb_false. Qed.

Lemma ltb_not_nan a b :
  (a <? b) = true -> is_nan a = false /\ is_nan b = false.
Proof.
  rewrite ltb_spec. intros H. apply SFltb_SFeqb in H.
  unfold is_nan. rewrite !eqb_spec. destruct H as [-> ->]. now split.
Qed.

Lemma leb_nan_l a b : is_nan a = true -> (a <=? b) = false.
Proof.
  unfold is_nan. rewrite eqb_spec, leb_spec. unfold SFeqb, SFleb.
  now destruct (Prim2SF a) as [[]|[]| |[] ? ?], (Prim2SF b) as [[]|[]| |[] ? ?];
    cbn; rewrite ?Pos.compare_cont_refl, ?Z.compare_refl; cbn;
    rewrite ?Pos.compare_cont_refl; cbn.
Qed.

End DoubleOrder.

Section DoubleNegation.

Local Open Scope float_scope.

(** Rounding the product of a representable binary64 number by 2^52 at
    exponent -52 gives the number back. *)
Lemma round_times_one s m e :
  bounded prec emax m e = true ->
  binary_round_aux prec emax (xorb s true)
    (Z.pos (m * 4503599627370496)) (e + -52) loc_Exact
  = S754_finite (negb s) m e.
Proof.
  unfold bounded, canonical_mantissa. intros H.
  apply andb_prop in H. destruct H as [Hc He].
  apply Z.eqb_eq in Hc.
  rewrite Pos.mul_comm.
  change (4503599627370496 * m)%positive with (Pos.iter xO m 52%positive).
  unfold binary_round_aux, shr_fexp.
  assert (D : Zdigits2 (Z.pos (Pos.iter xO m 52))
              = (Z.pos (digits2_pos m) + 52)%Z) by (cbn; lia).
  rewrite D.
  replace (Z.pos (digits2_pos m) + 52 + (e + -52))%Z
    with (Z.pos (digits2_pos m) + e)%Z by lia.
  rewrite Hc.
  replace (e - (e + -52))%Z with 52%Z by lia.
  cbn [shr shr_record_of_loc].
  replace (e + -52 + 52)%Z with e by lia.
  change (iter_pos shr_1 52
            {| shr_m := Z.pos (Pos.iter xO m 52);
               shr_r := false; shr_s := false |})
    with {| shr_m := Z.pos m; shr_r := false; shr_s := false |}.
  cbn [shr_m loc_of_shr_record round_nearest_even Zdigits2].
  rewrite Hc, Z.sub_diag.
  cbn [shr shr_record_of_loc shr_m].
  rewrite He. now rewrite xorb_true_r.
Qed.

(** [a * -1.0] is [-a], for every binary64 value. *)
Lemma mul_minus_one (a : float) : a * -1.0 = - a.
Proof.
  apply Prim2SF_inj.
  rewrite mul_spec, opp_spec.
  change (Prim2SF (-1.0)) with (S754_finite true 4503599627370496 (-52)).
  pose proof (Prim2SF_valid a) as V.
  destruct (Prim2SF a) as [s|s| |s m e]; cbn [SF64mul SFmul SFopp];
    try now rewrite ?xorb_true_r.
  apply round_times_one. exact V.
Qed.

End DoubleNegation.

(** ** The loops and the sequence of calls *)

Section Replay.

Lemma replay_app cs1 cs2 mesh :
  replay (cs1 ++ cs2) mesh = replay cs2 (replay cs1 mesh).
Proof. apply fold_left_app. Qed.

Lemma fold_app ps1 ps2 bounds :
  fold (ps1 ++ ps2) bounds = fold ps2 (fold ps1 bounds).
Proof. apply fold_left_app. Qed.

Lemma processTriangle_replay scale T transform reversed mesh bounds t :
  processTriangle scale T transform reversed (mesh, bounds) t
  = (replay (triangleCalls scale T transform reversed t) mesh,
     fold (map fst (triangleCalls scale T transform reversed t)) bounds).
Proof. destruct t as [[i1 i2] i3]. reflexivity. Qed.

Lemma triangles_replay scale T transform reversed ts : forall mesh bounds,
  fold_left (processTriangle scale T transform reversed) ts (mesh, bounds)
  = (replay (flat_map (triangleCalls scale T transform reversed) ts) mesh,
     fold (map fst (flat_map (triangleCalls scale T transform reversed) ts))
       bounds).
Proof.
  induction ts as [|t ts IH]; intros mesh bounds; [reflexivity|].
  cbn [fold_left flat_map].
  rewrite processTriangle_replay, IH, map_app, replay_app, fold_app.
  reflexivity.
Qed.

Lemma processFace_replay scale mesh bounds face :
  processFace scale (mesh, bounds) face
  = (replay (faceCalls scale face) mesh,
     fold (map fst (faceCalls scale face)) bounds).
Proof.
  unfold processFace, faceCalls.
  destruct (Triangulation face) as [T|]; [apply triangles_replay|reflexivity].
Qed.

Lemma faces_replay scale faces : forall mesh bounds,
  fold_left (processFace scale) faces (mesh, bounds)
  = (replay (flat_map (faceCalls scale) faces) mesh,
     fold (map fst (flat_map (faceCalls scale) faces)) bounds).
Proof.
  induction faces as [|face faces IH]; intros mesh bounds; [reflexivity|].
  cbn [fold_left flat_map].
  rewrite processFace_replay, IH, map_app, replay_app, fold_app.
  reflexivity.
Qed.

(** The two loops make exactly the calls of [calls], in that order; the
    bounds are folded over the same points. *)
Lemma extract_replay scale faces :
  extract scale faces
  = (replay (calls scale faces) emptyMesh,
     fold (map fst (calls scale faces)) initialBounds).
Proof. apply faces_replay. Qed.

Lemma replay_positions cs : forall mesh,
  positions (replay cs mesh)
  = positions mesh
    ++ flat_map (fun c => [x (fst c); y (fst c); z (fst c)]) cs.
Proof.
  induction cs as [|c cs IH]; intros mesh; cbn [replay fold_left flat_map].
  - now rewrite app_nil_r.
  - fold (replay cs (appendVertex mesh (fst c) (snd c))).
    rewrite IH. cbn [appendVertex positions]. now rewrite <- app_assoc.
Qed.

Lemma replay_normals cs : forall mesh,
  normals (replay cs mesh)
  = normals mesh
    ++ flat_map (fun c => [x (snd c); y (snd c); z (snd c)]) cs.
Proof.
  induction cs as [|c cs IH]; intros mesh; cbn [replay fold_left flat_map].
  - now rewrite app_nil_r.
  - fold (replay cs (appendVertex mesh (fst c) (snd c))).
    rewrite IH. cbn [appendVertex normals]. now rewrite <- app_assoc.
Qed.

Lemma replay_indices cs : forall mesh,
  indices (replay cs mesh)
  = indices mesh
    ++ map (fun i => Std.to_unsigned_int (Z.of_nat i))
         (seq (List.length (indices mesh)) (List.length cs)).
Proof.
  induction cs as [|c cs IH]; intros mesh; cbn [replay fold_left].
  - cbn. now rewrite app_nil_r.
  - fold (replay cs (appendVertex mesh (fst c) (snd c))).
    rewrite IH. cbn [appendVertex indices List.length seq map].
    rewrite <- app_assoc, length_app. cbn [List.length app].
    now rewrite Nat.add_1_r.
Qed.

Lemma calls_points scale faces :
  map fst (calls scale faces) = map (scaled scale) (kernelPoints faces).
Proof.
  unfold calls, kernelPoints.
  induction faces as [|face faces IH]; [reflexivity|].
  cbn [flat_map]. rewrite !map_app, IH. f_equal.
  unfold faceCalls, facePoints.
  destruct (Triangulation face) as [T|]; [|reflexivity].
  induction (Triangles T) as [|t ts IHt]; [reflexivity|].
  cbn [flat_map]. rewrite !map_app, IHt. f_equal.
  unfold triangleCalls. rewrite map_map. reflexivity.
Qed.

Lemma calls_length scale faces :
  List.length (calls scale faces) = List.length (kernelPoints faces).
Proof.
  rewrite <- (length_map fst), calls_points. apply length_map.
Qed.

End Replay.

(** ** Face orientation *)

Section Orientation.

Variables (scale : float) (T : Poly_Triangulation) (location : gp_Trsf).

Let forward : TopoDS_Face :=
  {| Triangulation := Some T; Location := location;
     Orientation := TopAbs_FORWARD |}.
Let reversed : TopoDS_Face :=
  {| Triangulation := Some T; Location := location;
     Orientation := TopAbs_REVERSED |}.

Lemma orient_reversed normal : orient true normal = negate normal.
Proof.
  unfold orient, negate. now rewrite !mul_minus_one.
Qed.

Lemma triangleNormal_reversed t :
  triangleNormal scale T location true t
  = negate (triangleNormal scale T location false t).
Proof.
  destruct t as [[i1 i2] i3]. unfold triangleNormal.
  now rewrite orient_reversed.
Qed.

Lemma faceCalls_reversed :
  faceCalls scale reversed
  = map (fun c => (fst c, negate (snd c))) (faceCalls scale forward).
Proof.
  unfold faceCalls, reversed, forward.
  cbn [Triangulation Location Orientation isReversed].
  induction (Triangles T) as [|t ts IH]; [reflexivity|].
  cbn [flat_map]. rewrite map_app, IH. f_equal.
  unfold triangleCalls. rewrite map_map. cbn [fst snd].
  now rewrite triangleNormal_reversed.
Qed.

Lemma flat_map_negated (cs : list (Vec3 * Vec3)) :
  flat_map (fun c => [x (snd c); y (snd c); z (snd c)])
    (map (fun c => (fst c, negate (snd c))) cs)
  = map PrimFloat.opp
      (flat_map (fun c => [x (snd c); y (snd c); z (snd c)]) cs).
Proof.
  induction cs as [|c cs IH]; [reflexivity|].
  cbn [map flat_map app fst snd negate x y z]. now rewrite IH.
Qed.

(** C1.  Take a face and the same face with the other orientation flag,
    processed from the same state.  The reversed face appends the same
    positions in the same order, the same indices and folds the same bounds;
    the normal values it appends are the negations, one by one, of those the
    forward face appends.  For each triangle the emitted normal of the
    reversed face is the componentwise negation of the forward one. *)
Theorem reversed_face_negates_normals (st : MeshData * Bounds) :
  let fwd := processFace scale st forward in
  let rev := processFace scale st reversed in
  positions (fst rev) = positions (fst fwd)
  /\ indices (fst rev) = indices (fst fwd)
  /\ snd rev = snd fwd
  /\ (exists added,
        normals (fst fwd) = normals (fst st) ++ added
        /\ normals (fst rev) = normals (fst st) ++ map PrimFloat.opp added)
  /\ (forall t,
        triangleNormal scale T location true t
        = negate (triangleNormal scale T location false t))
  /\ (forall t mesh bounds,
        fst (processTriangle scale T location true (mesh, bounds) t)
        = replay
            (map (fun c => (fst c, negate (snd c)))
               (triangleCalls scale T location false t)) mesh
        /\ fst (processTriangle scale T location false (mesh, bounds) t)
           = replay (triangleCalls scale T location false t) mesh).
Proof.
  destruct st as [mesh bounds]. cbv zeta.
  rewrite !processFace_replay, faceCalls_reversed. cbn [fst snd].
  rewrite !replay_positions, !replay_indices, !replay_normals,
    flat_map_negated, !length_map, !map_map.
  repeat split.
  - f_equal. clear. induction (faceCalls scale forward) as [|c cs IH];
      [reflexivity|]. cbn [map flat_map fst]. now rewrite IH.
  - eexists. split; reflexivity.
  - apply triangleNormal_reversed.
  - rewrite processTriangle_replay. cbn [fst]. f_equal.
    unfold triangleCalls. rewrite map_map. cbn [fst snd].
    now rewrite triangleNormal_reversed.
  - now rewrite processTriangle_replay.
Qed.

End Orientation.

(** ** The buffers *)

Section Buffers.

Lemma consistent_empty : consistent emptyMesh.
Proof. split; reflexivity. Qed.

Lemma appendVertex_consistent mesh point normal :
  consistent mesh -> consistent (appendVertex mesh point normal).
Proof.
  unfold consistent. cbn [appendVertex positions normals indices].
  rewrite !length_app. cbn [List.length]. lia.
Qed.

Lemma replay_consistent cs : forall mesh,
  consistent mesh -> consistent (replay cs mesh).
Proof.
  induction cs as [|c cs IH]; intros mesh H; [exact H|].
  apply IH, appendVertex_consistent, H.
Qed.

(** C2.  The state of the buffers after the first [k] calls of
    [appendVertex] of a run, for every [k], satisfies
    [positions.length == normals.length == 3 * indices.length]; so does the
    state at the end of the face loop, which is the state after all the
    calls; and one more call keeps it. *)
Theorem buffers_consistent scale faces :
  (forall k, consistent (replay (firstn k (calls scale faces)) emptyMesh))
  /\ consistent (fst (extract scale faces))
  /\ fst (extract scale faces) = replay (calls scale faces) emptyMesh
  /\ (forall k point normal,
        consistent
          (appendVertex (replay (firstn k (calls scale faces)) emptyMesh)
             point normal)).
Proof.
  rewrite extract_replay. cbn [fst].
  repeat split;
    try apply appendVertex_consistent;
    apply replay_consistent, consistent_empty.
Qed.

Lemma extract_indices scale faces :
  indices (fst (extract scale faces))
  = map (fun i => Std.to_unsigned_int (Z.of_nat i))
      (seq 0 (List.length (calls scale faces))).
Proof.
  rewrite extract_replay. cbn [fst]. now rewrite replay_indices.
Qed.

Lemma to_unsigned_int_small n :
  (0 <= n < 2 ^ 32)%Z -> Std.to_unsigned_int n = n.
Proof. intros H. apply Z.mod_small. exact H. Qed.

Lemma extract_index scale faces i :
  (i < List.length (indices (fst (extract scale faces))))%nat ->
  nth_error (indices (fst (extract scale faces))) i
  = Some (Z.of_nat i mod 2 ^ 32)%Z.
Proof.
  rewrite extract_indices, length_map, length_seq. intros H.
  rewrite nth_error_map, nth_error_seq.
  destruct (Nat.ltb_spec i (List.length (calls scale faces))); [|lia].
  reflexivity.
Qed.

(** C3, amended.  The indices buffer has one entry per emitted vertex (three
    per triangle that the kernel lists, whether or not points coincide);
    entry [i] is [i] reduced modulo [2^32], hence [i] itself as long as
    [i < 2^32]; and every [appendVertex] appends the current length of the
    indices sequence, cast to [unsigned int]. *)
Theorem indices_sequential_modulo scale faces :
  let mesh := fst (extract scale faces) in
  List.length (indices mesh) = List.length (kernelPoints faces)
  /\ (forall i, (i < List.length (indices mesh))%nat ->
        nth_error (indices mesh) i = Some (Z.of_nat i mod 2 ^ 32)%Z)
  /\ (forall i, (i < List.length (indices mesh))%nat ->
        (Z.of_nat i < 2 ^ 32)%Z ->
        nth_error (indices mesh) i = Some (Z.of_nat i))
  /\ (forall m point normal,
        indices (appendVertex m point normal)
        = indices m ++ [(Z.of_nat (List.length (indices m)) mod 2 ^ 32)%Z]).
Proof.
  cbv zeta. repeat split.
  - now rewrite extract_indices, length_map, length_seq, calls_length.
  - apply extract_index.
  - intros i Hi Hsmall. rewrite extract_index by exact Hi.
    now rewrite Z.mod_small by lia.
Qed.

Lemma indices_sequential_modulo_witness :
  nth_error (indices (fst (extract 0.001 [Sample.forwardFace]))) 4
  = Some 4%Z.
Proof.
  apply (indices_sequential_modulo 0.001 [Sample.forwardFace]).
  - vm_compute. lia.
  - vm_compute. reflexivity.
Defined.

End Buffers.

Section BeyondUnsigned.

Lemma trianglePoints_length T transform ts :
  List.length (flat_map (trianglePoints T transform) ts)
  = (3 * List.length ts)%nat.
Proof.
  induction ts as [|[[i1 i2] i3] ts IH]; [reflexivity|].
  cbn [flat_map trianglePoints app List.length]. rewrite IH. lia.
Qed.

Lemma hugeFace_vertices :
  Z.of_nat (List.length (kernelPoints [Sample.hugeFace])) = 4294967298%Z.
Proof.
  unfold kernelPoints. cbn [flat_map]. rewrite app_nil_r.
  unfold facePoints, Sample.hugeFace. cbn [Triangulation Location Triangles].
  rewrite trianglePoints_length, repeat_length. lia.
Qed.

(** C3 as stated fails on a mesh of more than [2^32] vertices: the entry at
    position [2^32] of the indices buffer is [0]. *)
Lemma indices_wrap_around :
  ~ (forall scale faces i,
       (i < List.length (indices (fst (extract scale faces))))%nat ->
       nth_error (indices (fst (extract scale faces))) i
       = Some (Z.of_nat i)).
Proof.
  intros H.
  specialize (H 0.001%float [Sample.hugeFace] (Z.to_nat 4294967296)).
  assert (L : (Z.to_nat 4294967296
               < List.length
                   (indices (fst (extract 0.001 [Sample.hugeFace]))))%nat).
  { rewrite extract_indices, length_map, length_seq, calls_length.
    pose proof hugeFace_vertices. lia. }
  rewrite (extract_index _ _ _ L) in H by exact L.
  specialize (H L). rewrite Z2Nat.id in H by lia.
  discriminate H.
Qed.

End BeyondUnsigned.

(** ** Unit scaling *)

Section UnitScale.

Lemma unitScale_other token : token <> "m"%string -> unitScale token = 0.001%float.
Proof.
  intros H. unfold unitScale.
  destruct (String.eqb_spec token "m") as [E|_]; [contradiction|reflexivity].
Qed.

Lemma flat_map_over_map {A B C : Type} (f : A -> B) (g : B -> list C) l :
  flat_map g (map f l) = flat_map (fun a => g (f a)) l.
Proof.
  induction l as [|a l IH]; [reflexivity|]. cbn [map flat_map]. now rewrite IH.
Qed.

Lemma extract_positions scale faces :
  positions (fst (extract scale faces))
  = flat_map (fun p => [pX p * scale; pY p * scale; pZ p * scale]%float)
      (kernelPoints faces).
Proof.
  rewrite extract_replay. cbn [fst].
  rewrite replay_positions. cbn [emptyMesh positions app].
  rewrite <- (flat_map_over_map fst (fun v => [x v; y v; z v])
                (calls scale faces)).
  rewrite calls_points. now rewrite flat_map_over_map.
Qed.

(** What [main] does once the kernel has read, transferred and meshed. *)
Lemma main_meshed R K program filePath rest shape faces :
  ReadFile K filePath = true ->
  OneShape K filePath = Some shape ->
  BRepMesh_IncrementalMesh shape
    (deflection (parseOptions R rest defaultOptions))
    (angle (parseOptions R rest defaultOptions)) = Some faces ->
  main R K (program :: filePath :: rest)
  = let e := extract (unitScale (unit (parseOptions R rest defaultOptions)))
               faces in
    if empty (positions (fst e)) then failure emptyMeshMessage
    else {| exit_code := 0; out := serialize R (snd e) (fst e);
            err := EmptyString |}.
Proof.
  intros Hread Hshape Hmesh. unfold main.
  rewrite Hread, Hshape, Hmesh. cbn [negb].
  now destruct (extract _ faces).
Qed.

(** C4.  The resolver gives [1.0] for ["m"] and [0.001] for every other
    token, ["mm"] included, and is defined on every token.  The positions
    buffer holds, vertex by vertex, the three coordinates of the kernel's
    transformed point, each multiplied by the scale; a run of [main] uses the
    scale of its unit option. *)
Theorem coordinates_scaled_by_unit :
  unitScale "m" = 1.0%float
  /\ unitScale "mm" = 0.001%float
  /\ (forall token, token <> "m"%string -> unitScale token = 0.001%float)
  /\ (forall token, exists scale, unitScale token = scale)
  /\ (forall token faces,
        positions (fst (extract (unitScale token) faces))
        = flat_map
            (fun p => [pX p * unitScale token; pY p * unitScale token;
                       pZ p * unitScale token]%float)
            (kernelPoints faces))
  /\ (forall R K program filePath rest shape faces,
        ReadFile K filePath = true ->
        OneShape K filePath = Some shape ->
        BRepMesh_IncrementalMesh shape
          (deflection (parseOptions R rest defaultOptions))
          (angle (parseOptions R rest defaultOptions)) = Some faces ->
        let token := unit (parseOptions R rest defaultOptions) in
        let e := extract (unitScale token) faces in
        positions (fst e) <> [] ->
        main R K (program :: filePath :: rest)
        = {| exit_code := 0; out := serialize R (snd e) (fst e);
             err := EmptyString |}).
Proof.
  repeat split.
  - apply unitScale_other.
  - intros token. now exists (unitScale token).
  - intros. apply extract_positions.
  - intros R K program filePath rest shape faces Hr Hs Hm token e Hne.
    rewrite (main_meshed R K program filePath rest shape faces Hr Hs Hm).
    fold token. fold e. cbv zeta.
    destruct (positions (fst e)); [contradiction|reflexivity].
Qed.

Lemma coordinates_scaled_by_unit_witness :
  unitScale "inch" = 0.001%float
  /\ main Sample.runtime Sample.kernel
       ["occt_step_export"; "solid.step"; "--unit"; "m"]%string
     = let e := extract (unitScale "m")
                  [Sample.forwardFace; Sample.reversedFace] in
       {| exit_code := 0; out := serialize Sample.runtime (snd e) (fst e);
          err := EmptyString |}.
Proof.
  split.
  - apply coordinates_scaled_by_unit. vm_compute. discriminate.
  - apply (proj2 (proj2 (proj2 (proj2 (proj2 coordinates_scaled_by_unit))))
             Sample.runtime Sample.kernel "occt_step_export"%string
             "solid.step"%string ["--unit"; "m"]%string Sample.solid).
    + reflexivity.
    + reflexivity.
    + reflexivity.
    + vm_compute. discriminate.
Defined.

End UnitScale.

(** ** Normalization *)

Section Normalize.

Local Open Scope float_scope.

Lemma normalize_degenerate v :
  (vecLength v <=? 1e-12) = true ->
  normalize v = {| x := 0.0; y := 0.0; z := 0.0 |}.
Proof. intros H. unfold normalize. now rewrite H. Qed.

Lemma normalize_regular v :
  (1e-12 <? vecLength v) = true ->
  normalize v
  = {| x := x v / vecLength v; y := y v / vecLength v; z := z v / vecLength v |}.
Proof.
  intros H. unfold normalize. now rewrite (ltb_leb_false _ _ H).
Qed.

(** C5.  [normalize] divides the vector by its Euclidean length when the
    length exceeds [1e-12] and returns [(0, 0, 0)] when the length is at
    most [1e-12].  A triangle whose cross product is that short still appends
    its three vertices and folds them into the bounds; the normal it carries
    is a zero vector: [(0, 0, 0)], with the sign of zero flipped on a reversed
    face. *)
Theorem normalize_by_length :
  (forall v,
     vecLength v = PrimFloat.sqrt (x v * x v + y v * y v + z v * z v))
  /\ (forall v, (1e-12 <? vecLength v) = true ->
        normalize v
        = {| x := x v / vecLength v; y := y v / vecLength v;
             z := z v / vecLength v |})
  /\ (forall v, (vecLength v <=? 1e-12) = true ->
        normalize v = {| x := 0.0; y := 0.0; z := 0.0 |})
  /\ (forall scale T transform (reversed : bool) mesh bounds i1 i2 i3,
        let v1 := scaled scale (Transformed (Node T i1) transform) in
        let v2 := scaled scale (Transformed (Node T i2) transform) in
        let v3 := scaled scale (Transformed (Node T i3) transform) in
        let zero := if reversed then (-0.0) else 0.0 in
        let normal := {| x := zero; y := zero; z := zero |} in
        (vecLength (cross (subtract v2 v1) (subtract v3 v1)) <=? 1e-12) = true ->
        processTriangle scale T transform reversed (mesh, bounds) (i1, i2, i3)
        = (appendVertex (appendVertex (appendVertex mesh v1 normal) v2 normal)
             v3 normal,
           updateBounds (updateBounds (updateBounds bounds v1) v2) v3)
        /\ (zero =? 0.0) = true).
Proof.
  split; [reflexivity|]. split; [apply normalize_regular|].
  split; [apply normalize_degenerate|].
  intros scale T transform reversed mesh bounds i1 i2 i3 v1 v2 v3 zero normal H.
  split; [|now destruct reversed].
  unfold processTriangle. fold v1 v2 v3.
  rewrite (normalize_degenerate _ H).
  now destruct reversed.
Qed.

Lemma normalize_by_length_witness :
  normalize {| x := 3.0; y := 4.0; z := 0.0 |}
  = {| x := 3.0 / 5.0; y := 4.0 / 5.0; z := 0.0 |}
  /\ normalize {| x := 0.0; y := 1e-13; z := 0.0 |}
     = {| x := 0.0; y := 0.0; z := 0.0 |}
  /\ normals
       (fst (processTriangle 0.001 Sample.triangulation Sample.here true
               (emptyMesh, initialBounds) Sample.flatTriangle))
     = repeat (-0.0) 9.
Proof.
  split; [|split].
  - apply (proj1 (proj2 normalize_by_length)
             {| x := 3.0; y := 4.0; z := 0.0 |}).
    vm_compute. reflexivity.
  - apply (proj1 (proj2 (proj2 normalize_by_length))
             {| x := 0.0; y := 1e-13; z := 0.0 |}).
    vm_compute. reflexivity.
  - unfold Sample.flatTriangle.
    rewrite (proj1 (proj2 (proj2 (proj2 normalize_by_length)) 0.001
               Sample.triangulation Sample.here true emptyMesh initialBounds
               2%Z 2%Z 2%Z eq_refl)).
    reflexivity.
Defined.

End Normalize.

(** ** Bounds *)

Section BoundsFold.

Local Open Scope float_scope.

Lemma min_numeric a p : is_nan a = false -> is_nan (Std.min a p) = false.
Proof.
  intros Ha. unfold Std.min. destruct (p <? a) eqn:E; [|exact Ha].
  now apply ltb_not_nan in E.
Qed.

Lemma max_numeric a p : is_nan a = false -> is_nan (Std.max a p) = false.
Proof.
  intros Ha. unfold Std.max. destruct (a <? p) eqn:E; [|exact Ha].
  now apply ltb_not_nan in E.
Qed.

Lemma min_below_first a p : is_nan a = false -> (Std.min a p <=? a) = true.
Proof.
  intros Ha. unfold Std.min. destruct (p <? a) eqn:E.
  - apply (ltb_leb_trans _ _ _ E), leb_refl, Ha.
  - apply leb_refl, Ha.
Qed.

Lemma min_below_second a p :
  is_nan a = false -> is_nan p = false -> (Std.min a p <=? p) = true.
Proof.
  intros Ha Hp. unfold Std.min. destruct (p <? a) eqn:E.
  - apply leb_refl, Hp.
  - now apply ltb_false_leb.
Qed.

Lemma max_above_first a p : is_nan a = false -> (a <=? Std.max a p) = true.
Proof.
  intros Ha. unfold Std.max. destruct (a <? p) eqn:E.
  - apply (ltb_leb_trans _ _ _ E), leb_refl. now apply ltb_not_nan in E.
  - apply leb_refl, Ha.
Qed.

Lemma max_above_second a p :
  is_nan a = false -> is_nan p = false -> (p <=? Std.max a p) = true.
Proof.
  intros Ha Hp. unfold Std.max. destruct (a <? p) eqn:E.
  - apply leb_refl, Hp.
  - now apply ltb_false_leb.
Qed.

Lemma updateBounds_numeric bounds point :
  numeric bounds -> numeric (updateBounds bounds point).
Proof.
  unfold numeric. cbn [updateBounds min max x y z].
  intros [(? & ? & ?) (? & ? & ?)].
  repeat split; (apply min_numeric || apply max_numeric); assumption.
Qed.

Lemma updateBounds_self bounds point :
  numeric bounds -> covers (updateBounds bounds point) point.
Proof.
  unfold numeric, covers, within. cbn [updateBounds min max x y z].
  intros [(? & ? & ?) (? & ? & ?)].
  repeat split; intros;
    (apply min_below_second || apply max_above_second); assumption.
Qed.

Lemma updateBounds_keeps bounds point v :
  numeric bounds -> covers bounds v -> covers (updateBounds bounds point) v.
Proof.
  unfold numeric, covers, within. cbn [updateBounds min max x y z].
  intros [(? & ? & ?) (? & ? & ?)] (Hx & Hy & Hz).
  split; [|split]; intros Hv;
    [destruct (Hx Hv) as [Hlo Hhi] | destruct (Hy Hv) as [Hlo Hhi]
    | destruct (Hz Hv) as [Hlo Hhi]];
    (split;
     [eapply leb_trans; [apply min_below_first; assumption|exact Hlo]
     |eapply leb_trans; [exact Hhi|apply max_above_first; assumption]]).
Qed.

Lemma fold_numeric points : forall bounds,
  numeric bounds -> numeric (fold points bounds).
Proof.
  induction points as [|p ps IH]; intros bounds H; [exact H|].
  apply (IH (updateBounds bounds p)), updateBounds_numeric, H.
Qed.

Lemma fold_keeps points v : forall bounds,
  numeric bounds -> covers bounds v -> covers (fold points bounds) v.
Proof.
  induction points as [|p ps IH]; intros bounds H Hv; [exact Hv|].
  apply (IH (updateBounds bounds p));
    [apply updateBounds_numeric, H|apply updateBounds_keeps; assumption].
Qed.

Lemma fold_covers points v : forall bounds,
  numeric bounds -> In v points -> covers (fold points bounds) v.
Proof.
  induction points as [|p ps IH]; intros bounds H Hin; [contradiction|].
  destruct Hin as [->|Hin].
  - apply (fold_keeps ps v (updateBounds bounds v));
      [apply updateBounds_numeric, H|apply updateBounds_self, H].
  - apply (IH (updateBounds bounds p));
      [apply updateBounds_numeric, H|exact Hin].
Qed.

Lemma initialBounds_numeric : numeric initialBounds.
Proof. repeat split. Qed.

End BoundsFold.

Section BoundsOfARun.

Local Open Scope float_scope.

(** C6, amended.  The bounds at the end of the face loop are the fold of
    [updateBounds] over the emitted vertices, one step per vertex, three per
    triangle; for every emitted vertex and every axis on which its coordinate
    is a number (not a NaN), [bounds.min.axis <= v.axis <= bounds.max.axis]. *)
Theorem bounds_cover_emitted_vertices scale faces :
  let bounds := snd (extract scale faces) in
  let emitted := map fst (calls scale faces) in
  emitted = map (scaled scale) (kernelPoints faces)
  /\ bounds = fold_left updateBounds emitted initialBounds
  /\ (forall v, In v emitted ->
        (is_nan (x v) = false ->
           (x (min bounds) <=? x v) = true /\ (x v <=? x (max bounds)) = true)
        /\ (is_nan (y v) = false ->
              (y (min bounds) <=? y v) = true /\ (y v <=? y (max bounds)) = true)
        /\ (is_nan (z v) = false ->
              (z (min bounds) <=? z v) = true
              /\ (z v <=? z (max bounds)) = true)).
Proof.
  cbv zeta. rewrite extract_replay. cbn [snd].
  split; [apply calls_points|]. split; [reflexivity|].
  intros v Hin.
  apply (fold_covers _ v initialBounds initialBounds_numeric Hin).
Qed.

Lemma bounds_cover_emitted_vertices_witness :
  let v := {| x := 1000.0 * 0.001; y := 0.0 * 0.001; z := 0.0 * 0.001 |} in
  let bounds := snd (extract 0.001 [Sample.forwardFace]) in
  (x (min bounds) <=? x v) = true /\ (x v <=? x (max bounds)) = true.
Proof.
  cbv zeta.
  apply (proj2 (proj2 (bounds_cover_emitted_vertices 0.001 [Sample.forwardFace]))
           {| x := 1000.0 * 0.001; y := 0.0 * 0.001; z := 0.0 * 0.001 |}).
  - right. left. reflexivity.
  - reflexivity.
Defined.

(** C6 as stated fails for a vertex with a NaN coordinate: no comparison with
    it holds, and the fold leaves the bounds as they were. *)
Lemma bounds_miss_nan_vertex :
  ~ (forall scale faces v,
       In v (map fst (calls scale faces)) ->
       let bounds := snd (extract scale faces) in
       ((x (min bounds) <=? x v) = true /\ (x v <=? x (max bounds)) = true)
       /\ ((y (min bounds) <=? y v) = true /\ (y v <=? y (max bounds)) = true)
       /\ ((z (min bounds) <=? z v) = true /\ (z v <=? z (max bounds)) = true)).
Proof.
  intros H.
  specialize (H 0.001 [Sample.strayFace]
                {| x := PrimFloat.nan; y := 0.0; z := 0.0 |}).
  destruct H as [[Hlo _] _].
  - left. reflexivity.
  - vm_compute in Hlo. discriminate Hlo.
Qed.

Lemma extract_empty scale faces :
  positions (fst (extract scale faces)) = [] <-> kernelPoints faces = [].
Proof.
  rewrite extract_positions.
  destruct (kernelPoints faces) as [|p ps]; cbn [flat_map app];
    split; intros H; try reflexivity; discriminate H.
Qed.

Lemma extract_nothing scale faces :
  kernelPoints faces = [] -> extract scale faces = (emptyMesh, initialBounds).
Proof.
  intros H. rewrite extract_replay.
  assert (E : calls scale faces = []).
  { apply length_zero_iff_nil. rewrite calls_length, H. reflexivity. }
  now rewrite E.
Qed.

(** C7.  When the kernel has read the file, given a shape and meshed it, and
    the positions buffer is empty after the face loop (which is the case
    exactly when the faces carry no triangle), the run writes
    ["No mesh data extracted."] and a line feed to standard error, exits with
    code 1 and writes nothing to standard output. *)
Theorem empty_mesh_is_a_failure R K program filePath rest shape faces :
  ReadFile K filePath = true ->
  OneShape K filePath = Some shape ->
  BRepMesh_IncrementalMesh shape
    (deflection (parseOptions R rest defaultOptions))
    (angle (parseOptions R rest defaultOptions)) = Some faces ->
  let scale := unitScale (unit (parseOptions R rest defaultOptions)) in
  (positions (fst (extract scale faces)) = [] <-> kernelPoints faces = [])
  /\ (positions (fst (extract scale faces)) = [] ->
      main R K (program :: filePath :: rest)
      = {| exit_code := 1; out := EmptyString;
           err := ("No mesh data extracted." ++ LF)%string |}).
Proof.
  intros Hr Hs Hm scale. split; [apply extract_empty|].
  intros He. rewrite (main_meshed R K program filePath rest shape faces Hr Hs Hm).
  fold scale. cbv zeta. now rewrite He.
Qed.

Lemma empty_mesh_is_a_failure_witness :
  main Sample.runtime Sample.kernel ["occt_step_export"; "hollow.step"]%string
  = {| exit_code := 1; out := EmptyString;
       err := ("No mesh data extracted." ++ LF)%string |}.
Proof.
  apply (proj2 (empty_mesh_is_a_failure Sample.runtime Sample.kernel
                  "occt_step_export"%string "hollow.step"%string []
                  Sample.hollow [Sample.bareFace] eq_refl eq_refl eq_refl)).
  reflexivity.
Defined.

(** Every run either writes nothing to standard output or writes the
    document of an extraction that emitted at least one vertex. *)
Lemma main_out R K argv :
  out (main R K argv) = EmptyString
  \/ exists scale faces,
       kernelPoints faces <> []
       /\ out (main R K argv)
          = serialize R (snd (extract scale faces)) (fst (extract scale faces)).
Proof.
  unfold main.
  destruct argv as [|program [|filePath rest]]; try (left; reflexivity).
  destruct (ReadFile K filePath); cbn [negb]; [|left; reflexivity].
  destruct (OneShape K filePath) as [shape|]; [|left; reflexivity].
  destruct (BRepMesh_IncrementalMesh shape _ _) as [faces|];
    [|left; reflexivity].
  set (scale := unitScale _).
  destruct (extract scale faces) as [mesh bounds] eqn:E.
  destruct (positions mesh) as [|c cs] eqn:P; [left; reflexivity|].
  right. exists scale, faces. rewrite E. split; [|reflexivity].
  intros Hnone. apply (extract_empty scale) in Hnone.
  rewrite E in Hnone. cbn [fst] in Hnone. congruence.
Qed.

(** C8, amended.  The bounds start at the largest finite double on every axis
    of [min] and at the lowest finite double on every axis of [max]; these
    are finite numbers, not infinities.  When no vertex is folded in, the
    bounds at the end of the face loop are still these values, and no run
    writes them: whatever a run writes to standard output is the document of
    an extraction that emitted a vertex. *)
Theorem bounds_start_at_finite_limits :
  initialBounds
  = {| min := {| x := 0x1.fffffffffffffp+1023; y := 0x1.fffffffffffffp+1023;
                 z := 0x1.fffffffffffffp+1023 |};
       max := {| x := - 0x1.fffffffffffffp+1023; y := - 0x1.fffffffffffffp+1023;
                 z := - 0x1.fffffffffffffp+1023 |} |}
  /\ is_finite (x (min initialBounds)) = true
  /\ is_finite (x (max initialBounds)) = true
  /\ (forall scale faces,
        kernelPoints faces = [] -> snd (extract scale faces) = initialBounds)
  /\ (forall R K argv,
        out (main R K argv) = EmptyString
        \/ exists scale faces,
             kernelPoints faces <> []
             /\ out (main R K argv)
                = serialize R (snd (extract scale faces))
                    (fst (extract scale faces))).
Proof.
  repeat split.
  - intros scale faces H. now rewrite (extract_nothing scale faces H).
  - apply main_out.
Qed.

Lemma bounds_start_at_finite_limits_witness :
  snd (extract 0.001 [Sample.bareFace]) = initialBounds.
Proof.
  apply (proj1 (proj2 (proj2 (proj2 bounds_start_at_finite_limits)))).
  reflexivity.
Defined.

(** C8 as stated fails: the starting bounds are not infinities. *)
Lemma bounds_do_not_start_at_infinity :
  initialBounds
  <> {| min := {| x := infinity; y := infinity; z := infinity |};
        max := {| x := neg_infinity; y := neg_infinity; z := neg_infinity |} |}.
Proof.
  intros H.
  apply (f_equal (fun b => x (min b) <? infinity)) in H.
  vm_compute in H. discriminate H.
Qed.

End BoundsOfARun.

(** ** The option loop *)

Section OptionLoop.

Variable R : Runtime.




Lemma parseOptions_last arg o : parseOptions R [arg] o = o.
Proof. reflexivity. Qed.

Lemma parseOptions_unknown arg rest o :
  isFlag arg = false -> parseOptions R (arg :: rest) o = parseOptions R rest o.
Proof.
  unfold isFlag. intros H.
  apply orb_false_elim in H. destruct H as [H Hu].
  apply orb_false_elim in H. destruct H as [Hd Ha].
  destruct rest as [|value rest']; [reflexivity|].
  cbn [parseOptions]. now rewrite Hd, Ha, Hu.
Qed.

Lemma main_options K program filePath rest rest' :
  parseOptions R rest defaultOptions = parseOptions R rest' defaultOptions ->
  main R K (program :: filePath :: rest) = main R K (program :: filePath :: rest').
Proof. intros H. unfold main. now rewrite H. Qed.





(** C10.  An argument that the loop reaches last, a flag included, changes
    nothing; an argument that the loop reaches and that is none of the three
    flags is stepped over with the options unchanged.  In both cases the run
    is the run of the command line without that argument. *)
Theorem stray_arguments_are_ignored :
  (forall arg o, parseOptions R [arg] o = o)
  /\ (forall arg rest o,
        isFlag arg = false ->
        parseOptions R (arg :: rest) o = parseOptions R rest o)
  /\ (forall K program filePath arg,
        main R K [program; filePath; arg] = main R K [program; filePath])
  /\ (forall K program filePath arg rest,
        isFlag arg = false ->
        main R K (program :: filePath :: arg :: rest)
        = main R K (program :: filePath :: rest)).
Proof.
  split; [apply parseOptions_last|]. split; [apply parseOptions_unknown|].
  split.
  - intros. now apply main_options.
  - intros. now apply main_options, parseOptions_unknown.
Qed.

End OptionLoop.




Lemma stray_arguments_are_ignored_witness :
  main Sample.runtime Sample.kernel
    ["occt_step_export"; "solid.step"; "--verbose"; "--unit"; "m"]%string
  = main Sample.runtime Sample.kernel
      ["occt_step_export"; "solid.step"; "--unit"; "m"]%string.
Proof.
  apply (stray_arguments_are_ignored Sample.runtime). reflexivity.
Defined.

(** * Further properties of the program *)

(** ** How a run ends *)

Section Outcomes.

Variables (R : Runtime) (K : Kernel).

Lemma serialize_not_empty bounds mesh : serialize R bounds mesh <> EmptyString.
Proof. unfold serialize. cbn [append]. discriminate. Qed.

Lemma main_usage argv :
  (List.length argv < 2)%nat -> main R K argv = failure usageMessage.
Proof.
  destruct argv as [|program [|filePath rest]]; cbn [List.length]; intros H;
    [reflexivity|reflexivity|lia].
Qed.

Lemma main_read_failure program filePath rest :
  ReadFile K filePath = false ->
  main R K (program :: filePath :: rest) = failure readFailureMessage.
Proof. intros H. unfold main. now rewrite H. Qed.

Lemma main_no_shape program filePath rest :
  ReadFile K filePath = true -> OneShape K filePath = None ->
  main R K (program :: filePath :: rest) = failure noShapeMessage.
Proof. intros H1 H2. unfold main. now rewrite H1, H2. Qed.

Lemma main_meshing_failure program filePath rest shape :
  ReadFile K filePath = true -> OneShape K filePath = Some shape ->
  BRepMesh_IncrementalMesh shape
    (deflection (parseOptions R rest defaultOptions))
    (angle (parseOptions R rest defaultOptions)) = None ->
  main R K (program :: filePath :: rest) = failure meshingFailureMessage.
Proof. intros H1 H2 H3. unfold main. now rewrite H1, H2, H3. Qed.

Lemma main_empty_mesh program filePath rest shape faces :
  ReadFile K filePath = true -> OneShape K filePath = Some shape ->
  BRepMesh_IncrementalMesh shape
    (deflection (parseOptions R rest defaultOptions))
    (angle (parseOptions R rest defaultOptions)) = Some faces ->
  kernelPoints faces = [] ->
  main R K (program :: filePath :: rest) = failure emptyMeshMessage.
Proof.
  intros H1 H2 H3 H4. rewrite (main_meshed R K _ _ _ _ _ H1 H2 H3). cbv zeta.
  now rewrite (proj2 (extract_empty _ faces) H4).
Qed.

Lemma main_document program filePath rest shape faces :
  ReadFile K filePath = true -> OneShape K filePath = Some shape ->
  BRepMesh_IncrementalMesh shape
    (deflection (parseOptions R rest defaultOptions))
    (angle (parseOptions R rest defaultOptions)) = Some faces ->
  kernelPoints faces <> [] ->
  let e := extract (unitScale (unit (parseOptions R rest defaultOptions)))
             faces in
  main R K (program :: filePath :: rest)
  = {| exit_code := 0; out := serialize R (snd e) (fst e);
       err := EmptyString |}.
Proof.
  intros H1 H2 H3 H4 e. rewrite (main_meshed R K _ _ _ _ _ H1 H2 H3).
  fold e. cbv zeta.
  destruct (positions (fst e)) eqn:P; [|reflexivity].
  apply extract_empty in P. contradiction.
Qed.

Lemma main_ending argv : Ending R K argv (main R K argv).
Proof.
  destruct argv as [|program [|filePath rest]];
    try (rewrite main_usage by (cbn; lia); apply EndUsage; cbn; lia).
  destruct (ReadFile K filePath) eqn:H1.
  2:{ rewrite (main_read_failure _ _ _ H1).
      exact (EndRead R K _ program filePath rest eq_refl H1). }
  destruct (OneShape K filePath) as [shape|] eqn:H2.
  2:{ rewrite (main_no_shape _ _ _ H1 H2).
      exact (EndNoShape R K _ program filePath rest eq_refl H1 H2). }
  destruct (BRepMesh_IncrementalMesh shape
              (deflection (parseOptions R rest defaultOptions))
              (angle (parseOptions R rest defaultOptions)))
    as [faces|] eqn:H3.
  2:{ rewrite (main_meshing_failure _ _ _ _ H1 H2 H3).
      exact (EndMeshing R K _ program filePath rest shape eq_refl H1 H2 H3). }
  destruct (kernelPoints faces) as [|p ps] eqn:H4.
  - rewrite (main_empty_mesh _ _ _ _ _ H1 H2 H3 H4).
    exact (EndEmpty R K _ program filePath rest shape faces eq_refl H1 H2 H3 H4).
  - assert (N : kernelPoints faces <> []) by (rewrite H4; discriminate).
    rewrite (main_document _ _ _ _ _ H1 H2 H3 N). cbv zeta.
    exact (EndDocument R K _ program filePath rest shape faces eq_refl
             H1 H2 H3 N).
Qed.

Local Ltac other_message H := exfalso; vm_compute in H; discriminate H.

(** X1.  A run exits with 0 or 1.  It exits with 0 exactly when it writes
    nothing to standard error, and exactly when it writes something to
    standard output; with exit code 1 the text on standard error is one of
    the five messages of the program. *)
Theorem run_writes_one_stream argv :
  let run := main R K argv in
  (exit_code run = 0%Z \/ exit_code run = 1%Z)
  /\ (exit_code run = 0%Z <-> err run = EmptyString)
  /\ (exit_code run = 0%Z <-> out run <> EmptyString)
  /\ (exit_code run = 1%Z ->
      In (err run)
        [usageMessage; readFailureMessage; noShapeMessage;
         meshingFailureMessage; emptyMeshMessage]).
Proof.
  cbv zeta. destruct (main_ending argv); cbn [exit_code out err failure].
  1-5: (split; [now right|]; split; [split; intros E; other_message E|];
        split; [split; [intros E; other_message E|intros E; now elim E]|];
        intros _; cbn [In]; tauto).
  split; [now left|]. split; [tauto|].
  split; [split; [intros _; apply serialize_not_empty|reflexivity]|].
  intros E. other_message E.
Qed.

(** X2.  The message on standard error names the cause: the usage text
    appears exactly when there are fewer than two arguments; the read message
    exactly when the kernel cannot read the file, whatever the options; the
    no-shape message exactly when the file is read and yields no shape; the
    meshing message exactly when the shape is not meshed with the parsed
    tolerances; the no-data message exactly when the meshed faces carry no
    triangle. *)
Theorem failure_message_names_the_cause argv :
  let run := main R K argv in
  (err run = usageMessage <-> (List.length argv < 2)%nat)
  /\ (err run = readFailureMessage <->
      exists program filePath rest,
        argv = program :: filePath :: rest /\ ReadFile K filePath = false)
  /\ (err run = noShapeMessage <->
      exists program filePath rest,
        argv = program :: filePath :: rest
        /\ ReadFile K filePath = true /\ OneShape K filePath = None)
  /\ (err run = meshingFailureMessage <->
      exists program filePath rest shape,
        argv = program :: filePath :: rest
        /\ ReadFile K filePath = true /\ OneShape K filePath = Some shape
        /\ BRepMesh_IncrementalMesh shape
             (deflection (parseOptions R rest defaultOptions))
             (angle (parseOptions R rest defaultOptions)) = None)
  /\ (err run = emptyMeshMessage <->
      exists program filePath rest shape faces,
        argv = program :: filePath :: rest
        /\ ReadFile K filePath = true /\ OneShape K filePath = Some shape
        /\ BRepMesh_IncrementalMesh shape
             (deflection (parseOptions R rest defaultOptions))
             (angle (parseOptions R rest defaultOptions)) = Some faces
        /\ kernelPoints faces = []).
Proof.
  cbv zeta. repeat apply conj.
  - intros E. destruct (main_ending argv); cbn [err failure] in E;
      first [assumption | other_message E].
  - intros H. now rewrite (main_usage _ H).
  - intros E. destruct (main_ending argv); cbn [err failure] in E;
      first [now eauto 6 | other_message E].
  - intros (program & filePath & rest & -> & H1).
    now rewrite (main_read_failure _ _ _ H1).
  - intros E. destruct (main_ending argv); cbn [err failure] in E;
      first [now eauto 7 | other_message E].
  - intros (program & filePath & rest & -> & H1 & H2).
    now rewrite (main_no_shape _ _ _ H1 H2).
  - intros E. destruct (main_ending argv); cbn [err failure] in E;
      first [now eauto 9 | other_message E].
  - intros (program & filePath & rest & shape & -> & H1 & H2 & H3).
    now rewrite (main_meshing_failure _ _ _ _ H1 H2 H3).
  - intros E. destruct (main_ending argv); cbn [err failure] in E;
      first [now eauto 11 | other_message E].
  - intros (program & filePath & rest & shape & faces & -> & H1 & H2 & H3 & H4).
    now rewrite (main_empty_mesh _ _ _ _ _ H1 H2 H3 H4).
Qed.

End Outcomes.

Lemma run_writes_one_stream_witness :
  In (err (main Sample.runtime Sample.kernel ["occt_step_export"]%string))
    [usageMessage; readFailureMessage; noShapeMessage;
     meshingFailureMessage; emptyMeshMessage].
Proof.
  apply (run_writes_one_stream Sample.runtime Sample.kernel
           ["occt_step_export"]%string).
  reflexivity.
Defined.

Lemma failure_message_names_the_cause_witness :
  err (main Sample.runtime Sample.kernel
         ["occt_step_export"; "missing.step"; "--unit"; "m"]%string)
  = readFailureMessage.
Proof.
  apply (failure_message_names_the_cause Sample.runtime Sample.kernel
           ["occt_step_export"; "missing.step"; "--unit"; "m"]%string).
  exists "occt_step_export"%string, "missing.step"%string,
    ["--unit"; "m"]%string.
  split; reflexivity.
Defined.

(** ** What the option loop changes *)

Section OptionEffects.

Variable R : Runtime.

(** Induction along the loop: it advances by one argument or by two. *)
Lemma option_loop_ind (P : list string -> Prop) :
  P [] ->
  (forall arg, P [arg]) ->
  (forall arg value rest, P rest -> P (value :: rest) ->
                          P (arg :: value :: rest)) ->
  forall args, P args.
Proof.
  intros Hnil Hone Hstep args.
  enough (H : P args /\ forall arg, P (arg :: args)) by apply H.
  induction args as [|value rest [IH1 IH2]].
  - split; [exact Hnil|exact Hone].
  - split; [apply IH2|]. intros arg. apply Hstep; [exact IH1|apply IH2].
Qed.

Lemma parseOptions_keeps_deflection args : forall o,
  ~ In "--deflection"%string args ->
  deflection (parseOptions R args o) = deflection o.
Proof.
  induction args as [|arg|arg value rest IH1 IH2] using option_loop_ind;
    intros o Hno; try reflexivity.
  cbn [parseOptions].
  destruct (String.eqb_spec arg "--deflection") as [->|_].
  { elim Hno. now left. }
  assert (N1 : ~ In "--deflection"%string rest)
    by (intros H; apply Hno; now right; right).
  assert (N2 : ~ In "--deflection"%string (value :: rest))
    by (intros H; apply Hno; now right).
  destruct (String.eqb arg "--angle"); [now rewrite IH1|].
  destruct (String.eqb arg "--unit"); [now rewrite IH1|].
  now apply IH2.
Qed.

Lemma parseOptions_keeps_angle args : forall o,
  ~ In "--angle"%string args -> angle (parseOptions R args o) = angle o.
Proof.
  induction args as [|arg|arg value rest IH1 IH2] using option_loop_ind;
    intros o Hno; try reflexivity.
  cbn [parseOptions].
  assert (N1 : ~ In "--angle"%string rest)
    by (intros H; apply Hno; now right; right).
  assert (N2 : ~ In "--angle"%string (value :: rest))
    by (intros H; apply Hno; now right).
  destruct (String.eqb arg "--deflection"); [now rewrite IH1|].
  destruct (String.eqb_spec arg "--angle") as [->|_].
  { elim Hno. now left. }
  destruct (String.eqb arg "--unit"); [now rewrite IH1|].
  now apply IH2.
Qed.

Lemma parseOptions_keeps_unit args : forall o,
  ~ In "--unit"%string args -> unit (parseOptions R args o) = unit o.
Proof.
  induction args as [|arg|arg value rest IH1 IH2] using option_loop_ind;
    intros o Hno; try reflexivity.
  cbn [parseOptions].
  assert (N1 : ~ In "--unit"%string rest)
    by (intros H; apply Hno; now right; right).
  assert (N2 : ~ In "--unit"%string (value :: rest))
    by (intros H; apply Hno; now right).
  destruct (String.eqb arg "--deflection"); [now rewrite IH1|].
  destruct (String.eqb arg "--angle"); [now rewrite IH1|].
  destruct (String.eqb_spec arg "--unit") as [->|_].
  { elim Hno. now left. }
  now apply IH2.
Qed.

(** X3.  The loop changes a parameter only through its own flag: when
    ["--deflection"] is not among the arguments the deflection is the one the
    loop started with, whatever else is given, and likewise for ["--angle"]
    and ["--unit"].  With no flag at all the options are the defaults. *)
Theorem parameter_changes_only_by_its_flag args o :
  (~ In "--deflection"%string args ->
     deflection (parseOptions R args o) = deflection o)
  /\ (~ In "--angle"%string args -> angle (parseOptions R args o) = angle o)
  /\ (~ In "--unit"%string args -> unit (parseOptions R args o) = unit o)
  /\ (~ In "--deflection"%string args -> ~ In "--angle"%string args ->
      ~ In "--unit"%string args -> parseOptions R args o = o).
Proof.
  split; [apply parseOptions_keeps_deflection|].
  split; [apply parseOptions_keeps_angle|].
  split; [apply parseOptions_keeps_unit|].
  intros Hd Ha Hu.
  pose proof (parseOptions_keeps_deflection args o Hd).
  pose proof (parseOptions_keeps_angle args o Ha).
  pose proof (parseOptions_keeps_unit args o Hu).
  destruct (parseOptions R args o), o. cbn in *. congruence.
Qed.

(** X4.  A flag that the loop reaches, followed by a value, sets its
    parameter, and when the flag does not occur again the value stays to the
    end: a number that [std::stod] reads is the final deflection or angle, and
    the token after ["--unit"] is the final unit, taken as it is. *)
Theorem option_given_once_takes_effect :
  (forall text d rest o,
     stod R text = Some d -> ~ In "--deflection"%string rest ->
     deflection (parseOptions R ("--deflection" :: text :: rest)%string o) = d)
  /\ (forall text a rest o,
        stod R text = Some a -> ~ In "--angle"%string rest ->
        angle (parseOptions R ("--angle" :: text :: rest)%string o) = a)
  /\ (forall token rest o,
        ~ In "--unit"%string rest ->
        unit (parseOptions R ("--unit" :: token :: rest)%string o) = token).
Proof.
  split; [|split].
  - intros text d rest o Hd Hno. cbn [parseOptions String.eqb Ascii.eqb Bool.eqb].
    rewrite parseOptions_keeps_deflection by exact Hno.
    cbn [deflection readDouble]. now rewrite Hd.
  - intros text a rest o Ha Hno. cbn [parseOptions String.eqb Ascii.eqb Bool.eqb].
    rewrite parseOptions_keeps_angle by exact Hno.
    cbn [angle readDouble]. now rewrite Ha.
  - intros token rest o Hno. cbn [parseOptions String.eqb Ascii.eqb Bool.eqb].
    now rewrite parseOptions_keeps_unit by exact Hno.
Qed.

End OptionEffects.

Lemma parameter_changes_only_by_its_flag_witness :
  deflection
    (parseOptions Sample.runtime ["--angle"; "2"; "--verbose"; "--unit"; "m"]%string
       defaultOptions)
  = 0.2%float.
Proof.
  apply (parameter_changes_only_by_its_flag Sample.runtime
           ["--angle"; "2"; "--verbose"; "--unit"; "m"]%string defaultOptions).
  cbn [In]. intros H. repeat destruct H as [H|H]; try discriminate H; exact H.
Defined.

Lemma option_given_once_takes_effect_witness :
  deflection
    (parseOptions Sample.runtime
       ["--deflection"; "0.3"; "--unit"; "m"; "--angle"]%string defaultOptions)
  = 0.3%float.
Proof.
  apply (proj1 (option_given_once_takes_effect Sample.runtime) "0.3"%string).
  - reflexivity.
  - cbn [In]. intros H. repeat destruct H as [H|H]; try discriminate H; exact H.
Defined.

(** ** Size and shape of the buffers *)

Section BufferShape.

Local Open Scope nat_scope.

Lemma facePoints_length face :
  List.length (facePoints face) = 3 * List.length (faceTriangles face).
Proof.
  unfold facePoints, faceTriangles.
  destruct (Triangulation face) as [T|]; [apply trianglePoints_length|reflexivity].
Qed.

Lemma kernelPoints_length faces :
  List.length (kernelPoints faces) = 3 * triangleCount faces.
Proof.
  unfold kernelPoints, triangleCount, list_sum.
  induction faces as [|face faces IH]; [reflexivity|].
  cbn [flat_map map fold_right].
  rewrite length_app, facePoints_length, IH. lia.
Qed.

Lemma extract_normals scale faces :
  normals (fst (extract scale faces))
  = flat_map (fun c => [x (snd c); y (snd c); z (snd c)]) (calls scale faces).
Proof. rewrite extract_replay. cbn [fst]. now rewrite replay_normals. Qed.

Lemma buffers_consistent_lengths scale faces :
  List.length (positions (fst (extract scale faces)))
  = List.length (normals (fst (extract scale faces)))
  /\ List.length (positions (fst (extract scale faces)))
     = 3 * List.length (indices (fst (extract scale faces))).
Proof.
  rewrite extract_replay. cbn [fst].
  apply (replay_consistent _ _ consistent_empty).
Qed.

(** X5.  A run emits three vertices for every triangle the kernel lists and
    nothing else: the positions and the normals buffers hold nine numbers per
    triangle and the indices buffer three entries per triangle, whatever the
    scale, the orientation of the faces and the coordinates are. *)
Theorem buffer_sizes scale faces :
  let mesh := fst (extract scale faces) in
  List.length (positions mesh) = 9 * triangleCount faces
  /\ List.length (normals mesh) = 9 * triangleCount faces
  /\ List.length (indices mesh) = 3 * triangleCount faces.
Proof.
  cbv zeta.
  assert (I : List.length (indices (fst (extract scale faces)))
              = 3 * triangleCount faces).
  { rewrite extract_indices, length_map, length_seq, calls_length.
    apply kernelPoints_length. }
  destruct (buffers_consistent_lengths scale faces) as [E1 E2].
  repeat split; lia.
Qed.

End BufferShape.

Section FaceLoop.

Let normalEntries (c : Vec3 * Vec3) : list float :=
  [x (snd c); y (snd c); z (snd c)].

Let nineEntries (n : Vec3) : list float :=
  [x n; y n; z n; x n; y n; z n; x n; y n; z n].

Lemma triangle_normal_entries scale T transform reversed t :
  flat_map normalEntries (triangleCalls scale T transform reversed t)
  = nineEntries (triangleNormal scale T transform reversed t).
Proof. destruct t as [[i1 i2] i3]. reflexivity. Qed.

Lemma face_normal_entries scale face :
  flat_map normalEntries (faceCalls scale face)
  = flat_map nineEntries (faceNormals scale face).
Proof.
  unfold faceCalls, faceNormals.
  destruct (Triangulation face) as [T|]; [|reflexivity].
  induction (Triangles T) as [|t ts IH]; [reflexivity|].
  cbn [flat_map map]. rewrite flat_map_app, IH, triangle_normal_entries.
  reflexivity.
Qed.

Lemma faceNormals_length scale face :
  List.length (faceNormals scale face) = List.length (faceTriangles face).
Proof.
  unfold faceNormals, faceTriangles.
  destruct (Triangulation face) as [T|]; [apply length_map|reflexivity].
Qed.

(** X6.  Normals are per triangle: the normals buffer is, triangle after
    triangle in the order of the loops, the three components of the
    triangle's normal written three times, once for each of its vertices. *)
Theorem normals_constant_per_triangle scale faces :
  normals (fst (extract scale faces))
  = flat_map
      (fun n => [x n; y n; z n; x n; y n; z n; x n; y n; z n])
      (triangleNormals scale faces)
  /\ List.length (triangleNormals scale faces) = triangleCount faces.
Proof.
  split.
  - rewrite extract_normals. unfold calls, triangleNormals.
    induction faces as [|face faces IH]; [reflexivity|].
    cbn [flat_map]. rewrite !flat_map_app, <- IH.
    f_equal. apply face_normal_entries.
  - unfold triangleNormals, triangleCount, list_sum.
    induction faces as [|face faces IH]; [reflexivity|].
    cbn [flat_map map fold_right].
    now rewrite length_app, faceNormals_length, IH.
Qed.

Lemma calls_app scale faces1 faces2 :
  calls scale (faces1 ++ faces2) = calls scale faces1 ++ calls scale faces2.
Proof. apply flat_map_app. Qed.

Lemma kernelPoints_app faces1 faces2 :
  kernelPoints (faces1 ++ faces2) = kernelPoints faces1 ++ kernelPoints faces2.
Proof. apply flat_map_app. Qed.

(** X7.  The output is append-only along the face list.  For a face list
    followed by another, the positions and the normals are those of the first
    list followed by those of the second list taken alone; the indices of the
    first list stay and the numbering goes on after them; the bounds are the
    bounds of the first list with the vertices of the second folded in. *)
Theorem extraction_is_append_only scale faces1 faces2 :
  let both := extract scale (faces1 ++ faces2) in
  let first := extract scale faces1 in
  let second := extract scale faces2 in
  positions (fst both) = positions (fst first) ++ positions (fst second)
  /\ normals (fst both) = normals (fst first) ++ normals (fst second)
  /\ indices (fst both)
     = indices (fst first)
       ++ map (fun i => Std.to_unsigned_int (Z.of_nat i))
            (seq (3 * triangleCount faces1) (3 * triangleCount faces2))
  /\ snd both
     = fold_left updateBounds
         (map (scaled scale) (kernelPoints faces2)) (snd first).
Proof.
  cbv zeta. split; [|split; [|split]].
  - now rewrite !extract_positions, kernelPoints_app, flat_map_app.
  - now rewrite !extract_normals, calls_app, flat_map_app.
  - rewrite !extract_indices, calls_app, length_app, seq_app, map_app.
    now rewrite !calls_length, !kernelPoints_length.
  - rewrite !extract_replay. cbn [snd].
    rewrite calls_app, map_app, fold_app, <- calls_points. reflexivity.
Qed.

Lemma faceCalls_no_triangles scale face :
  hasTriangles face = false -> faceCalls scale face = [].
Proof.
  unfold hasTriangles, faceTriangles, faceCalls.
  destruct (Triangulation face) as [T|]; [|reflexivity].
  now destruct (Triangles T).
Qed.

Lemma calls_filter scale faces :
  calls scale (filter hasTriangles faces) = calls scale faces.
Proof.
  unfold calls. induction faces as [|face faces IH]; [reflexivity|].
  cbn [filter flat_map]. destruct (hasTriangles face) eqn:E.
  - cbn [flat_map]. now rewrite IH.
  - now rewrite (faceCalls_no_triangles scale face E), IH.
Qed.

(** X8.  Faces without a triangulation and faces whose triangulation has no
    triangle do not count, wherever they stand: dropping them from the face
    list gives the same mesh and the same bounds. *)
Theorem faces_without_triangles_are_skipped scale faces :
  extract scale (filter hasTriangles faces) = extract scale faces
  /\ (forall face,
        Triangulation face = None ->
        forall st, processFace scale st face = st).
Proof.
  split.
  - now rewrite !extract_replay, calls_filter.
  - intros face H st. unfold processFace. now rewrite H.
Qed.

End FaceLoop.

Lemma faces_without_triangles_are_skipped_witness :
  processFace 0.001 (emptyMesh, initialBounds) Sample.bareFace
  = (emptyMesh, initialBounds).
Proof.
  apply (proj2 (faces_without_triangles_are_skipped 0.001 []) Sample.bareFace).
  reflexivity.
Defined.

(** ** Scaling by the unit *)

Section UnitFactor.

Local Open Scope float_scope.

(** Rounding [m * 2^52] at exponent [e - 52] gives back [m] at [e], with the
    sign asked for. *)
Lemma round_shifted_mantissa s m e :
  bounded prec emax m e = true ->
  binary_round_aux prec emax s
    (Z.pos (m * 4503599627370496)) (e + -52) loc_Exact
  = S754_finite s m e.
Proof.
  destruct s.
  - apply (round_times_one false m e).
  - apply (round_times_one true m e).
Qed.

(** [a * 1.0] is [a], for every binary64 value. *)
Lemma mul_one (a : float) : a * 1.0 = a.
Proof.
  apply Prim2SF_inj. rewrite mul_spec.
  change (Prim2SF 1.0) with (S754_finite false 4503599627370496 (-52)).
  pose proof (Prim2SF_valid a) as V.
  destruct (Prim2SF a) as [s|s| |s m e]; cbn [SF64mul SFmul];
    try now rewrite ?xorb_false_r.
  rewrite xorb_false_r. apply round_shifted_mantissa. exact V.
Qed.

(** X9.  With the unit ["m"] the positions buffer holds the coordinates of
    the kernel's transformed points bit for bit, since multiplying a double by
    [1.0] returns it.  The unit never changes the indices buffer. *)
Theorem unit_m_keeps_coordinates faces :
  (forall a, a * unitScale "m" = a)
  /\ positions (fst (extract (unitScale "m") faces))
     = flat_map (fun p => [pX p; pY p; pZ p]) (kernelPoints faces)
  /\ (forall token,
        indices (fst (extract (unitScale token) faces))
        = indices (fst (extract (unitScale "m") faces))).
Proof.
  split; [intros a; apply mul_one|]. split.
  - rewrite extract_positions.
    induction (kernelPoints faces) as [|p ps IH]; [reflexivity|].
    cbn [flat_map]. rewrite IH.
    change (unitScale "m") with 1.0. now rewrite !mul_one.
  - intros token. now rewrite !extract_indices, !calls_length.
Qed.

End UnitFactor.

(** ** More on the bounds *)

Section BoundsValues.

Local Open Scope float_scope.

Lemma min_either a p : Std.min a p = a \/ Std.min a p = p.
Proof. unfold Std.min. destruct (p <? a); [now right|now left]. Qed.

Lemma max_either a p : Std.max a p = a \/ Std.max a p = p.
Proof. unfold Std.max. destruct (a <? p); [now right|now left]. Qed.

(** A component of the bounds that each step combines with a coordinate by an
    operation returning one of its arguments is the starting value or one of
    the coordinates. *)
Lemma fold_selects (get : Bounds -> float) (axis : Vec3 -> float)
    (op : float -> float -> float) :
  (forall a p, op a p = a \/ op a p = p) ->
  (forall b p, get (updateBounds b p) = op (get b) (axis p)) ->
  forall points b,
    sentinelOrCoordinate (get b) (get (fold points b)) axis points.
Proof.
  intros Hop Hget points. unfold sentinelOrCoordinate.
  induction points as [|p ps IH]; intros b; [now left|].
  change (fold (p :: ps) b) with (fold ps (updateBounds b p)).
  destruct (IH (updateBounds b p)) as [E|(v & Hin & E)].
  - rewrite E, Hget. destruct (Hop (get b) (axis p)) as [->| ->].
    + now left.
    + right. exists p. split; [now left|reflexivity].
  - right. exists v. split; [now right|exact E].
Qed.

(** X10.  The bounds never hold an invented number: at the end of the face
    loop each of the six components is the starting value of that component
    or the coordinate, on that axis, of an emitted vertex. *)
Theorem bounds_are_sentinels_or_coordinates scale faces :
  let bounds := snd (extract scale faces) in
  let emitted := map (scaled scale) (kernelPoints faces) in
  (sentinelOrCoordinate Std.numeric_limits_max (x (min bounds)) x emitted
   /\ sentinelOrCoordinate Std.numeric_limits_max (y (min bounds)) y emitted
   /\ sentinelOrCoordinate Std.numeric_limits_max (z (min bounds)) z emitted)
  /\ (sentinelOrCoordinate Std.numeric_limits_lowest (x (max bounds)) x emitted
      /\ sentinelOrCoordinate Std.numeric_limits_lowest (y (max bounds)) y
           emitted
      /\ sentinelOrCoordinate Std.numeric_limits_lowest (z (max bounds)) z
           emitted).
Proof.
  cbv zeta. rewrite extract_replay, calls_points. cbn [snd].
  repeat split.
  - apply (fold_selects (fun b => x (min b)) x Std.min min_either);
      reflexivity.
  - apply (fold_selects (fun b => y (min b)) y Std.min min_either);
      reflexivity.
  - apply (fold_selects (fun b => z (min b)) z Std.min min_either);
      reflexivity.
  - apply (fold_selects (fun b => x (max b)) x Std.max max_either);
      reflexivity.
  - apply (fold_selects (fun b => y (max b)) y Std.max max_either);
      reflexivity.
  - apply (fold_selects (fun b => z (max b)) z Std.max max_either);
      reflexivity.
Qed.

End BoundsValues.

Section BoundsOrder.

Local Open Scope float_scope.

Lemma ltb_nan a p : is_nan p = true -> (p <? a) = false /\ (a <? p) = false.
Proof.
  intros H. split.
  - destruct (p <? a) eqn:E; [|reflexivity].
    apply ltb_not_nan in E. destruct E as [E _]. congruence.
  - destruct (a <? p) eqn:E; [|reflexivity].
    apply ltb_not_nan in E. destruct E as [_ E]. congruence.
Qed.

Lemma ltb_irrefl a : (a <? a) = false.
Proof.
  destruct (a <? a) eqn:E; [|reflexivity].
  pose proof (ltb_leb_false _ _ E) as F.
  apply ltb_not_nan in E. destruct E as [E _].
  rewrite (leb_refl _ E) in F. discriminate F.
Qed.

Lemma min_skips_nan a p : is_nan p = true -> Std.min a p = a.
Proof. intros H. unfold Std.min. now rewrite (proj1 (ltb_nan a p H)). Qed.

Lemma max_skips_nan a p : is_nan p = true -> Std.max a p = a.
Proof. intros H. unfold Std.max. now rewrite (proj2 (ltb_nan a p H)). Qed.

Lemma fold_skips (get : Bounds -> float) (axis : Vec3 -> float)
    (op : float -> float -> float) :
  (forall a p, is_nan p = true -> op a p = a) ->
  (forall b p, get (updateBounds b p) = op (get b) (axis p)) ->
  forall points b,
    (forall v, In v points -> is_nan (axis v) = true) ->
    get (fold points b) = get b.
Proof.
  intros Hop Hget points.
  induction points as [|p ps IH]; intros b Hall; [reflexivity|].
  change (fold (p :: ps) b) with (fold ps (updateBounds b p)).
  rewrite IH by (intros v Hv; apply Hall; now right).
  rewrite Hget. apply Hop, Hall. now left.
Qed.

(** X11.  On each axis: as soon as one emitted vertex has a coordinate that
    is a number, [bounds.min <= bounds.max] holds at the end of the face loop;
    when every emitted vertex has a NaN there, the two bounds are still the
    starting values, the largest finite double below the lowest one. *)
Theorem bounds_ordered_where_numeric scale faces axis :
  In axis [x; y; z] ->
  let bounds := snd (extract scale faces) in
  let emitted := map (scaled scale) (kernelPoints faces) in
  (forall v, In v emitted -> is_nan (axis v) = false ->
     (axis (min bounds) <=? axis (max bounds)) = true)
  /\ ((forall v, In v emitted -> is_nan (axis v) = true) ->
      axis (min bounds) = Std.numeric_limits_max
      /\ axis (max bounds) = Std.numeric_limits_lowest).
Proof.
  intros Haxis. cbv zeta. rewrite extract_replay, calls_points. cbn [snd].
  split.
  - intros v Hin Hnum.
    destruct (fold_covers _ v initialBounds initialBounds_numeric Hin)
      as (Hx & Hy & Hz).
    destruct Haxis as [<-|[<-|[<-|[]]]];
      [destruct (Hx Hnum) as [L U] | destruct (Hy Hnum) as [L U]
      | destruct (Hz Hnum) as [L U]];
      exact (leb_trans _ _ _ L U).
  - intros Hall.
    destruct Haxis as [<-|[<-|[<-|[]]]]; split;
      first
        [ apply (fold_skips (fun b => x (min b)) x Std.min min_skips_nan);
          [reflexivity|exact Hall]
        | apply (fold_skips (fun b => y (min b)) y Std.min min_skips_nan);
          [reflexivity|exact Hall]
        | apply (fold_skips (fun b => z (min b)) z Std.min min_skips_nan);
          [reflexivity|exact Hall]
        | apply (fold_skips (fun b => x (max b)) x Std.max max_skips_nan);
          [reflexivity|exact Hall]
        | apply (fold_skips (fun b => y (max b)) y Std.max max_skips_nan);
          [reflexivity|exact Hall]
        | apply (fold_skips (fun b => z (max b)) z Std.max max_skips_nan);
          [reflexivity|exact Hall] ].
Qed.

Lemma min_unchanged_iff a p :
  is_nan a = false ->
  (Std.min a p = a <-> (is_nan p = false -> (a <=? p) = true)).
Proof.
  intros Ha. unfold Std.min. split.
  - intros H Hp. destruct (p <? a) eqn:E.
    + subst p. rewrite ltb_irrefl in E. discriminate E.
    + now apply ltb_false_leb.
  - intros H. destruct (p <? a) eqn:E; [|reflexivity].
    pose proof (ltb_leb_false _ _ E) as F.
    apply ltb_not_nan in E. destruct E as [E _].
    rewrite (H E) in F. discriminate F.
Qed.

Lemma max_unchanged_iff a p :
  is_nan a = false ->
  (Std.max a p = a <-> (is_nan p = false -> (p <=? a) = true)).
Proof.
  intros Ha. unfold Std.max. split.
  - intros H Hp. destruct (a <? p) eqn:E.
    + subst p. rewrite ltb_irrefl in E. discriminate E.
    + now apply ltb_false_leb.
  - intros H. destruct (a <? p) eqn:E; [|reflexivity].
    pose proof (ltb_leb_false _ _ E) as F.
    apply ltb_not_nan in E. destruct E as [_ E].
    rewrite (H E) in F. discriminate F.
Qed.

Lemma updateBounds_unchanged_iff bounds point :
  numeric bounds ->
  (updateBounds bounds point = bounds <-> covers bounds point).
Proof.
  intros [(Nx & Ny & Nz) (Mx & My & Mz)].
  unfold covers, within.
  destruct bounds as [[lx ly lz] [ux uy uz]].
  cbn [updateBounds min max x y z] in *.
  pose proof (min_unchanged_iff lx (x point) Nx) as Ex.
  pose proof (min_unchanged_iff ly (y point) Ny) as Ey.
  pose proof (min_unchanged_iff lz (z point) Nz) as Ez.
  pose proof (max_unchanged_iff ux (x point) Mx) as Fx.
  pose proof (max_unchanged_iff uy (y point) My) as Fy.
  pose proof (max_unchanged_iff uz (z point) Mz) as Fz.
  split.
  - intros H. injection H as H1 H2 H3 H4 H5 H6.
    repeat split;
      first [now apply Ex | now apply Ey | now apply Ez
            | now apply Fx | now apply Fy | now apply Fz].
  - intros (Hx & Hy & Hz). unfold updateBounds. cbn [min max x y z].
    f_equal; f_equal;
      first [apply Ex; intros Hp; apply (proj1 (Hx Hp))
            | apply Ey; intros Hp; apply (proj1 (Hy Hp))
            | apply Ez; intros Hp; apply (proj1 (Hz Hp))
            | apply Fx; intros Hp; apply (proj2 (Hx Hp))
            | apply Fy; intros Hp; apply (proj2 (Hy Hp))
            | apply Fz; intros Hp; apply (proj2 (Hz Hp))].
Qed.

(** X12.  [updateBounds] changes bounds without NaN exactly when the point
    lies outside them: the bounds come back unchanged if and only if, on every
    axis where the point's coordinate is a number, it is between the two
    bounds.  Bounds reached from the starting values never hold a NaN, and
    folding an emitted vertex into the final bounds once more changes
    nothing. *)
Theorem updateBounds_changes_only_outside scale faces :
  (forall bounds point,
     numeric bounds ->
     (updateBounds bounds point = bounds <-> covers bounds point))
  /\ (forall points, numeric (fold_left updateBounds points initialBounds))
  /\ (forall v,
        In v (map (scaled scale) (kernelPoints faces)) ->
        updateBounds (snd (extract scale faces)) v = snd (extract scale faces)).
Proof.
  split; [apply updateBounds_unchanged_iff|].
  split; [intros points; apply fold_numeric, initialBounds_numeric|].
  intros v Hin. rewrite extract_replay, calls_points. cbn [snd].
  apply updateBounds_unchanged_iff.
  - apply fold_numeric, initialBounds_numeric.
  - apply fold_covers; [apply initialBounds_numeric|exact Hin].
Qed.

End BoundsOrder.

Lemma bounds_ordered_where_numeric_witness :
  let bounds := snd (extract 0.001 [Sample.forwardFace]) in
  (y (min bounds) <=? y (max bounds))%float = true.
Proof.
  cbv zeta.
  apply (proj1 (bounds_ordered_where_numeric 0.001 [Sample.forwardFace] y
                  (or_intror (or_introl eq_refl)))
           {| x := 0.0 * 0.001; y := 2000.0 * 0.001; z := 0.0 * 0.001 |}%float).
  - right. right. left. reflexivity.
  - reflexivity.
Defined.

Lemma updateBounds_changes_only_outside_witness :
  let v := {| x := 0.0 * 0.001; y := 2000.0 * 0.001; z := 0.0 * 0.001 |}%float in
  updateBounds (snd (extract 0.001 [Sample.forwardFace])) v
  = snd (extract 0.001 [Sample.forwardFace]).
Proof.
  cbv zeta.
  apply (proj2 (proj2 (updateBounds_changes_only_outside 0.001
                         [Sample.forwardFace]))).
  right. right. left. reflexivity.
Defined.

(** ** NaN coordinates and repeated nodes *)

Section SpecialValues.

Local Open Scope float_scope.

Lemma is_nan_Prim2SF a : is_nan a = true <-> Prim2SF a = S754_nan.
Proof.
  unfold is_nan. rewrite eqb_spec. unfold SFeqb, SFcompare.
  destruct (Prim2SF a) as [[]|[]| |[] m e]; cbn;
    rewrite ?Z.compare_refl, ?Pos.compare_cont_refl; cbn;
    split; intros H; try reflexivity; discriminate H.
Qed.

Lemma nan_unique a : is_nan a = true -> a = nan.
Proof.
  intros H. apply Prim2SF_inj. apply is_nan_Prim2SF in H. now rewrite H.
Qed.

Lemma mul_nan_l a b : is_nan a = true -> is_nan (a * b) = true.
Proof.
  rewrite !is_nan_Prim2SF, mul_spec. now intros ->.
Qed.

Lemma mul_nan_r a b : is_nan b = true -> is_nan (a * b) = true.
Proof.
  rewrite !is_nan_Prim2SF, mul_spec. intros ->.
  now destruct (Prim2SF a).
Qed.

Lemma sub_nan_l a b : is_nan a = true -> is_nan (a - b) = true.
Proof.
  rewrite !is_nan_Prim2SF, sub_spec. now intros ->.
Qed.

Lemma sub_nan_r a b : is_nan b = true -> is_nan (a - b) = true.
Proof.
  rewrite !is_nan_Prim2SF, sub_spec. intros ->.
  now destruct (Prim2SF a).
Qed.

Lemma add_nan_l a b : is_nan a = true -> is_nan (a + b) = true.
Proof.
  rewrite !is_nan_Prim2SF, add_spec. now intros ->.
Qed.

Lemma add_nan_r a b : is_nan b = true -> is_nan (a + b) = true.
Proof.
  rewrite !is_nan_Prim2SF, add_spec. intros ->.
  now destruct (Prim2SF a).
Qed.

Lemma sqrt_nan a : is_nan a = true -> is_nan (PrimFloat.sqrt a) = true.
Proof.
  rewrite !is_nan_Prim2SF, sqrt_spec. now intros ->.
Qed.

Lemma div_nan_r a b : is_nan b = true -> a / b = nan.
Proof.
  intros H. apply nan_unique. apply is_nan_Prim2SF.
  apply is_nan_Prim2SF in H. rewrite div_spec, H.
  now destruct (Prim2SF a).
Qed.

Lemma subtract_hasNaN_l a b : hasNaN a = true -> hasNaN (subtract a b) = true.
Proof.
  unfold hasNaN. cbn [subtract x y z]. rewrite !orb_true_iff.
  intros [[H|H]|H]; [left; left|left; right|right]; now apply sub_nan_l.
Qed.

Lemma subtract_hasNaN_r a b : hasNaN b = true -> hasNaN (subtract a b) = true.
Proof.
  unfold hasNaN. cbn [subtract x y z]. rewrite !orb_true_iff.
  intros [[H|H]|H]; [left; left|left; right|right]; now apply sub_nan_r.
Qed.

Lemma cross_hasNaN_l a b : hasNaN a = true -> hasNaN (cross a b) = true.
Proof.
  unfold hasNaN. cbn [cross x y z]. rewrite !orb_true_iff.
  intros [[H|H]|H].
  - left; right. now apply sub_nan_r, mul_nan_l.
  - left; left. now apply sub_nan_l, mul_nan_l.
  - left; left. now apply sub_nan_r, mul_nan_l.
Qed.

Lemma cross_hasNaN_r a b : hasNaN b = true -> hasNaN (cross a b) = true.
Proof.
  unfold hasNaN. cbn [cross x y z]. rewrite !orb_true_iff.
  intros [[H|H]|H].
  - left; right. now apply sub_nan_l, mul_nan_r.
  - left; left. now apply sub_nan_r, mul_nan_r.
  - left; left. now apply sub_nan_l, mul_nan_r.
Qed.

Lemma vecLength_hasNaN v : hasNaN v = true -> is_nan (vecLength v) = true.
Proof.
  unfold hasNaN, vecLength. rewrite !orb_true_iff.
  intros [[H|H]|H]; apply sqrt_nan.
  - now apply add_nan_l, add_nan_l, mul_nan_l.
  - now apply add_nan_l, add_nan_r, mul_nan_l.
  - now apply add_nan_r, mul_nan_l.
Qed.

Lemma normalize_nan_length v :
  is_nan (vecLength v) = true -> normalize v = {| x := nan; y := nan; z := nan |}.
Proof.
  intros H. unfold normalize. rewrite (leb_nan_l _ _ H).
  now rewrite !(div_nan_r _ _ H).
Qed.

Lemma scaled_hasNaN scale p :
  (is_nan (pX p) || is_nan (pY p) || is_nan (pZ p)) = true ->
  hasNaN (scaled scale p) = true.
Proof.
  unfold hasNaN. cbn [scaled x y z]. rewrite !orb_true_iff.
  intros [[H|H]|H]; [left; left|left; right|right]; now apply mul_nan_l.
Qed.

(** X13.  A NaN anywhere poisons the normal of its triangle: when one of the
    nine coordinates of the three vertices is a NaN (as it is when a
    coordinate of a kernel point is), the length test of [normalize] does not
    catch it and the emitted normal is [(NaN, NaN, NaN)], on forward and on
    reversed faces. *)
Theorem nan_vertex_gives_nan_normal scale T transform reversed i1 i2 i3 :
  let v1 := scaled scale (Transformed (Node T i1) transform) in
  let v2 := scaled scale (Transformed (Node T i2) transform) in
  let v3 := scaled scale (Transformed (Node T i3) transform) in
  (forall p, (is_nan (pX p) || is_nan (pY p) || is_nan (pZ p)) = true ->
             hasNaN (scaled scale p) = true)
  /\ ((hasNaN v1 || hasNaN v2 || hasNaN v3) = true ->
      triangleNormal scale T transform reversed (i1, i2, i3)
      = {| x := nan; y := nan; z := nan |}).
Proof.
  intros v1 v2 v3. split; [apply scaled_hasNaN|].
  intros H. unfold triangleNormal. fold v1 v2 v3.
  assert (N : hasNaN (cross (subtract v2 v1) (subtract v3 v1)) = true).
  { apply orb_true_iff in H. destruct H as [H|H].
    - apply orb_true_iff in H. destruct H as [H|H].
      + now apply cross_hasNaN_l, subtract_hasNaN_r.
      + now apply cross_hasNaN_l, subtract_hasNaN_l.
    - now apply cross_hasNaN_r, subtract_hasNaN_l. }
  rewrite (normalize_nan_length _ (vecLength_hasNaN _ N)).
  now destruct reversed.
Qed.

End SpecialValues.

Lemma nan_vertex_gives_nan_normal_witness :
  triangleNormal 0.001
    {| Node := Sample.strayNode; Triangles := [(1, 1, 1)%Z] |}
    Sample.here false (1, 1, 1)%Z
  = {| x := nan; y := nan; z := nan |}.
Proof.
  apply (proj2 (nan_vertex_gives_nan_normal 0.001
                  {| Node := Sample.strayNode; Triangles := [(1, 1, 1)%Z] |}
                  Sample.here false 1 1 1)).
  reflexivity.
Defined.

Section RepeatedNode.

Local Open Scope float_scope.

(** The value is a zero, of either sign. *)
Let isZero (a : float) : Prop := exists s, Prim2SF a = S754_zero s.

(** The value is a zero or a finite number. *)
Let finiteClass (a : spec_float) : Prop :=
  match a with
  | S754_zero _ | S754_finite _ _ _ => True
  | _ => False
  end.

Lemma is_finite_class a : is_finite a = true -> finiteClass (Prim2SF a).
Proof.
  unfold is_finite, is_infinity, is_nan.
  rewrite !eqb_spec, abs_spec.
  change (Prim2SF infinity) with (S754_infinity false).
  destruct (Prim2SF a) as [s|s| |s m e]; cbn; intros H;
    try exact I; try discriminate H.
  now destruct s.
Qed.

Lemma sub_self a : is_finite a = true -> a - a = 0.
Proof.
  intros H. apply is_finite_class in H. apply Prim2SF_inj.
  rewrite sub_spec.
  change (Prim2SF 0) with (S754_zero false).
  destruct (Prim2SF a) as [s|s| |s m e]; try contradiction.
  - now destruct s.
  - unfold SF64sub, SFsub. now rewrite Z.sub_diag.
Qed.

Lemma mul_zero_l a b : isZero a -> is_finite b = true -> isZero (a * b).
Proof.
  intros [s Ha] Hb. apply is_finite_class in Hb. unfold isZero.
  rewrite mul_spec, Ha.
  destruct (Prim2SF b) as [t|t| |t m e]; try contradiction; cbn; eauto.
Qed.

Lemma mul_zero_r a b : is_finite a = true -> isZero b -> isZero (a * b).
Proof.
  intros Ha [s Hb]. apply is_finite_class in Ha. unfold isZero.
  rewrite mul_spec, Hb.
  destruct (Prim2SF a) as [t|t| |t m e]; try contradiction; cbn; eauto.
Qed.

Lemma sub_zeros a b : isZero a -> isZero b -> isZero (a - b).
Proof.
  intros [s Ha] [t Hb]. unfold isZero. rewrite sub_spec, Ha, Hb.
  destruct s, t; cbn; eauto.
Qed.

Lemma square_zero a : isZero a -> a * a = 0.
Proof.
  intros [s Ha]. apply Prim2SF_inj. rewrite mul_spec, Ha.
  now destruct s.
Qed.

Lemma zero_is_zero : isZero 0.
Proof. now exists false. Qed.

Lemma vecLength_zeros v :
  isZero (x v) -> isZero (y v) -> isZero (z v) -> vecLength v = 0.
Proof.
  intros Hx Hy Hz. unfold vecLength.
  now rewrite (square_zero _ Hx), (square_zero _ Hy), (square_zero _ Hz).
Qed.

Lemma normalize_zeros v :
  isZero (x v) -> isZero (y v) -> isZero (z v) ->
  normalize v = {| x := 0; y := 0; z := 0 |}.
Proof.
  intros Hx Hy Hz. apply normalize_degenerate.
  now rewrite (vecLength_zeros v Hx Hy Hz).
Qed.

Lemma allFinite_components v :
  allFinite v = true ->
  is_finite (x v) = true /\ is_finite (y v) = true /\ is_finite (z v) = true.
Proof.
  unfold allFinite. rewrite !andb_true_iff. tauto.
Qed.

Lemma subtract_self v :
  allFinite v = true -> subtract v v = {| x := 0; y := 0; z := 0 |}.
Proof.
  intros H. apply allFinite_components in H. destruct H as (Hx & Hy & Hz).
  unfold subtract. now rewrite (sub_self _ Hx), (sub_self _ Hy), (sub_self _ Hz).
Qed.

Lemma normalize_cross_zero_l b :
  allFinite b = true ->
  normalize (cross {| x := 0; y := 0; z := 0 |} b)
  = {| x := 0; y := 0; z := 0 |}.
Proof.
  intros H. apply allFinite_components in H. destruct H as (Hx & Hy & Hz).
  apply normalize_zeros; cbn [cross x y z];
    apply sub_zeros; apply mul_zero_l; auto using zero_is_zero.
Qed.

Lemma normalize_cross_zero_r a :
  allFinite a = true ->
  normalize (cross a {| x := 0; y := 0; z := 0 |})
  = {| x := 0; y := 0; z := 0 |}.
Proof.
  intros H. apply allFinite_components in H. destruct H as (Hx & Hy & Hz).
  apply normalize_zeros; cbn [cross x y z];
    apply sub_zeros; apply mul_zero_r; auto using zero_is_zero.
Qed.

(** X14.  A triangle that names its first node twice gets the zero normal,
    not a NaN, provided the coordinates involved are finite: with the first
    vertex finite and the difference to the other vertex finite, the normal of
    the triangles [(i, i, k)] and [(i, k, i)] is [(0, 0, 0)] on a forward face
    and [(-0, -0, -0)] on a reversed face. *)
Theorem repeated_node_gives_zero_normal scale T transform (reversed : bool)
    i k :
  let v1 := scaled scale (Transformed (Node T i) transform) in
  let v3 := scaled scale (Transformed (Node T k) transform) in
  let zero := if reversed then (-0.0) else 0.0 in
  allFinite v1 = true ->
  allFinite (subtract v3 v1) = true ->
  triangleNormal scale T transform reversed (i, i, k)
  = {| x := zero; y := zero; z := zero |}
  /\ triangleNormal scale T transform reversed (i, k, i)
     = {| x := zero; y := zero; z := zero |}.
Proof.
  intros v1 v3 zero H1 H3. unfold triangleNormal. fold v1 v3.
  rewrite (subtract_self v1 H1).
  rewrite (normalize_cross_zero_l _ H3), (normalize_cross_zero_r _ H3).
  unfold zero. now destruct reversed.
Qed.

End RepeatedNode.

Lemma repeated_node_gives_zero_normal_witness :
  triangleNormal 0.001 Sample.triangulation Sample.here false (2, 2, 3)%Z
  = {| x := 0.0; y := 0.0; z := 0.0 |}%float.
Proof.
  apply (repeated_node_gives_zero_normal 0.001 Sample.triangulation
           Sample.here false 2 3); reflexivity.
Defined.

(** ** The index values *)

Section IndexValues.

Lemma to_unsigned_int_range n :
  (0 <= Std.to_unsigned_int n < 2 ^ 32)%Z.
Proof. unfold Std.to_unsigned_int, Std.UINT_WIDTH. apply Z.mod_pos_bound. lia. Qed.

(** X15.  Every entry of the indices buffer fits an [unsigned int], and as
    long as the run emits at most [2^32] vertices no two entries are equal:
    each vertex has an index of its own. *)
Theorem indices_fit_and_are_distinct scale faces :
  let mesh := fst (extract scale faces) in
  Forall (fun i => (0 <= i < 2 ^ 32)%Z) (indices mesh)
  /\ ((Z.of_nat (3 * triangleCount faces) <= 2 ^ 32)%Z ->
      NoDup (indices mesh)).
Proof.
  cbv zeta. rewrite extract_indices, calls_length, kernelPoints_length.
  split.
  - apply Forall_forall. intros i Hi. apply in_map_iff in Hi.
    destruct Hi as (n & <- & _). apply to_unsigned_int_range.
  - intros Hsmall.
    apply NoDup_map_NoDup_ForallPairs; [|apply seq_NoDup].
    intros a b Ha Hb. apply in_seq in Ha. apply in_seq in Hb.
    rewrite !to_unsigned_int_small by lia. lia.
Qed.

End IndexValues.

Lemma indices_fit_and_are_distinct_witness :
  NoDup (indices (fst (extract 0.001 [Sample.forwardFace; Sample.reversedFace]))).
Proof.
  apply (indices_fit_and_are_distinct 0.001
           [Sample.forwardFace; Sample.reversedFace]).
  vm_compute. discriminate.
Defined.

(** ** Bounds along the face list *)

Section BoundsGrowth.

Local Open Scope float_scope.

Lemma fold_lowers (get : Bounds -> float) (axis : Vec3 -> float) :
  (forall b p, get (updateBounds b p) = Std.min (get b) (axis p)) ->
  forall points b,
    is_nan (get b) = false ->
    (get (fold points b) <=? get b) = true.
Proof.
  intros Hget points.
  induction points as [|p ps IH]; intros b Hb; [now apply leb_refl|].
  change (fold (p :: ps) b) with (fold ps (updateBounds b p)).
  apply (leb_trans _ (get (updateBounds b p))).
  - apply IH. rewrite Hget. now apply min_numeric.
  - rewrite Hget. now apply min_below_first.
Qed.

Lemma fold_raises (get : Bounds -> float) (axis : Vec3 -> float) :
  (forall b p, get (updateBounds b p) = Std.max (get b) (axis p)) ->
  forall points b,
    is_nan (get b) = false ->
    (get b <=? get (fold points b)) = true.
Proof.
  intros Hget points.
  induction points as [|p ps IH]; intros b Hb; [now apply leb_refl|].
  change (fold (p :: ps) b) with (fold ps (updateBounds b p)).
  apply (leb_trans _ (get (updateBounds b p))).
  - rewrite Hget. now apply max_above_first.
  - apply IH. rewrite Hget. now apply max_numeric.
Qed.

(** X16.  More faces can only widen the box: on every axis the lower bound
    of a face list followed by another is at most the lower bound of the first
    list alone, and the upper bound is at least its upper bound. *)
Theorem more_faces_widen_the_bounds scale faces1 faces2 :
  let first := snd (extract scale faces1) in
  let both := snd (extract scale (faces1 ++ faces2)) in
  ((x (min both) <=? x (min first)) = true
   /\ (y (min both) <=? y (min first)) = true
   /\ (z (min both) <=? z (min first)) = true)
  /\ ((x (max first) <=? x (max both)) = true
      /\ (y (max first) <=? y (max both)) = true
      /\ (z (max first) <=? z (max both)) = true).
Proof.
  cbv zeta. rewrite !extract_replay. cbn [snd].
  rewrite calls_app, map_app, fold_app.
  pose proof (fold_numeric (map fst (calls scale faces1)) initialBounds
                initialBounds_numeric) as [(Nx & Ny & Nz) (Mx & My & Mz)].
  repeat split.
  - now apply (fold_lowers (fun b => x (min b)) x).
  - now apply (fold_lowers (fun b => y (min b)) y).
  - now apply (fold_lowers (fun b => z (min b)) z).
  - now apply (fold_raises (fun b => x (max b)) x).
  - now apply (fold_raises (fun b => y (max b)) y).
  - now apply (fold_raises (fun b => z (max b)) z).
Qed.

End BoundsGrowth.
